(** * Flockwave server: the application object and its message handlers

    A shallow embedding of [flockwave/server/app.py].  The application
    object [FlockwaveServer] becomes a record holding the registries and
    managers that the Python object owns; every method that mutates them or
    may raise becomes a computation in the state-and-exception monad [M].

    The collaborators of [app.py] that live in other modules of the
    repository (the message hub, the response ledger, the command execution
    manager, the subscription manager, the registries) are modelled from the
    specification; each such definition says so in its comment. *)

From Stdlib Require Import Ascii.
From stdpp Require Import strings.
From stdpp Require Import base option gmap gmultiset list.

(** ** Python values *)

(** Scalar values that travel in message bodies and driver results. *)
Inductive pyval : Type :=
  | PyNone
  | PyBool (b : bool)
  | PyInt (z : Z)
  | PyStr (s : string).

#[global] Instance pyval_eq_dec : EqDecision pyval.
Proof. solve_decision. Defined.

(** A value stored under a key of a message body: a scalar, a list of
    strings (id lists, path lists) or a mapping from strings to scalars. *)
Inductive field : Type :=
  | FVal (v : pyval)
  | FList (l : list string)
  | FDict (d : gmap string pyval).

(** [result is True] *)
Definition is_True (v : pyval) : bool :=
  match v with PyBool true => true | _ => false end.

(** Truth value of an object, as [if x:] computes it. *)
Definition truthy (f : field) : bool :=
  match f with
  | FVal PyNone => false
  | FVal (PyBool b) => b
  | FVal (PyInt z) => bool_decide (z ≠ 0%Z)
  | FVal (PyStr s) => bool_decide (s ≠ "")
  | FList l => bool_decide (l ≠ [])
  | FDict d => bool_decide (d ≠ ∅)
  end.

(** ** Exceptions

    An exception is known by the classes it is an instance of (its class
    followed by its base classes) and by the text [str(ex)] yields. *)
Record exn : Type := Exn { exn_classes : list string; exn_str : string }.

Definition isinstance (e : exn) (cls : string) : bool :=
  bool_decide (cls ∈ exn_classes e).

Definition KeyError (key : string) : exn :=
  Exn ["KeyError"; "LookupError"; "Exception"] key.
Definition TypeError (msg : string) : exn :=
  Exn ["TypeError"; "Exception"] msg.
Definition AttributeError (msg : string) : exn :=
  Exn ["AttributeError"; "Exception"] msg.
Definition ValueError (msg : string) : exn :=
  Exn ["ValueError"; "Exception"] msg.
Definition RuntimeError (msg : string) : exn :=
  Exn ["RuntimeError"; "Exception"] msg.
(** [NotImplementedError] is a built-in subclass of [RuntimeError]. *)
Definition NotImplementedError (msg : string) : exn :=
  Exn ["NotImplementedError"; "RuntimeError"; "Exception"] msg.
(** [flockwave.server.errors.NotSupportedError]; its base classes are not
    fixed here, a driver supplies the exception value it raises. *)
Definition NotSupportedError (msg : string) : exn :=
  Exn ["NotSupportedError"; "Exception"] msg.

(** ** Messages and the response ledger *)

(** Modelled from the spec: a message of [flockwave.server.model.messages]
    (absent from the sources at hand).  A message carries a body and a
    correlation token; a response is stamped with the token of the request
    it answers, a notification has none.  The ledger of a response has the
    wire shape [success: list of ids], [failure: mapping id -> reason],
    [receipt: mapping id -> receipt]. *)
Record FlockwaveMessage : Type := {
  body : gmap string field;
  correlation_id : option string;
  success : list string;
  failure : gmap string pyval;
  receipt : gmap string string
}.

Abbreviation FlockwaveResponse := FlockwaveMessage (only parsing).

(** Modelled from the spec: [FlockwaveResponse.add_success] appends the id
    to the [success] list. *)
Definition add_success (successful_id : string) (r : FlockwaveResponse)
  : FlockwaveResponse :=
  {| body := body r; correlation_id := correlation_id r;
     success := success r ++ [successful_id];
     failure := failure r; receipt := receipt r |}.

(** Modelled from the spec: [FlockwaveResponse.add_failure] stores the
    reason under the id in the [failure] mapping. *)
Definition add_failure (failed_id : string) (reason : pyval)
  (r : FlockwaveResponse) : FlockwaveResponse :=
  {| body := body r; correlation_id := correlation_id r;
     success := success r;
     failure := <[failed_id := reason]> (failure r); receipt := receipt r |}.

(** Modelled from the spec: [FlockwaveResponse.add_receipt] stores the
    receipt (referred to by its id) under the id in the [receipt] mapping. *)
Definition add_receipt (uav_id receipt_id : string) (r : FlockwaveResponse)
  : FlockwaveResponse :=
  {| body := body r; correlation_id := correlation_id r;
     success := success r; failure := failure r;
     receipt := <[uav_id := receipt_id]> (receipt r) |}.

(** Modelled from the spec: [MessageHub.create_response_or_notification]
    stamps the new message with the token of [in_response_to] when one is
    given and leaves it without a token otherwise; the ledger starts
    empty. *)
Definition create_response_or_notification (b : gmap string field)
  (in_response_to : option FlockwaveMessage) : FlockwaveMessage :=
  {| body := b; correlation_id := in_response_to ≫= correlation_id;
     success := []; failure := ∅; receipt := ∅ |}.

(** Modelled from the spec: the message hub of [flockwave.server.message_hub]
    is seen through what it sends: [send_message(message, to)] is a unicast
    when [to] is given and a broadcast otherwise. *)
Record MessageHub : Type := { outbox : list (FlockwaveMessage * option string) }.

Definition hub_send (message : FlockwaveMessage) (to : option string)
  (hub : MessageHub) : MessageHub :=
  {| outbox := outbox hub ++ [(message, to)] |}.

(** The messages in a stretch of the outbox that were addressed to
    [client]. *)
Definition messages_to (client : string)
  (sent : list (FlockwaveMessage * option string)) : list FlockwaveMessage :=
  (filter (λ item, item.2 = Some client) sent).*1.

(** ** Vehicles, receipts and drivers *)

Record Client : Type := { client_id : string }.

(** A vehicle exposes its id, the driver that owns it and its status. *)
Record UAV : Type := {
  uav_id : string;
  uav_driver : string;
  uav_status : pyval
}.

#[global] Instance UAV_eq_dec : EqDecision UAV.
Proof. solve_decision. Defined.

Inductive ReceiptState : Type := Pending | Finished | TimedOut | Cancelled.

#[global] Instance ReceiptState_eq_dec : EqDecision ReceiptState.
Proof. solve_decision. Defined.

(** Modelled from the spec: [flockwave.server.commands.CommandExecutionStatus]
    (absent from the sources at hand). *)
Record CommandExecutionStatus : Type := {
  status_id : string;
  status_state : ReceiptState;
  clients_to_notify : gset string;
  status_response : pyval;
  clients_notified : bool
}.

(** Modelled from the spec: [CommandExecutionStatus.add_client_to_notify]. *)
Definition status_add_client_to_notify (client : string)
  (st : CommandExecutionStatus) : CommandExecutionStatus :=
  {| status_id := status_id st; status_state := status_state st;
     clients_to_notify := {[client]} ∪ clients_to_notify st;
     status_response := status_response st;
     clients_notified := clients_notified st |}.

Definition status_mark_as_clients_notified (st : CommandExecutionStatus)
  : CommandExecutionStatus :=
  {| status_id := status_id st; status_state := status_state st;
     clients_to_notify := clients_to_notify st;
     status_response := status_response st;
     clients_notified := true |}.

Definition status_cancel (st : CommandExecutionStatus)
  : CommandExecutionStatus :=
  match status_state st with
  | Pending =>
      {| status_id := status_id st; status_state := Cancelled;
         clients_to_notify := clients_to_notify st;
         status_response := status_response st;
         clients_notified := clients_notified st |}
  | _ => st
  end.

(** Modelled from the spec: [flockwave.server.commands.CommandExecutionManager]
    (absent from the sources at hand).  The manager owns the receipts, keyed
    by their unique id, and the set of receipts the timeout sweep looks at.
    A receipt object handed around in the program is a reference into
    [entries]. *)
Record CommandExecutionManager : Type := {
  entries : gmap string CommandExecutionStatus;
  sweep_set : gset string
}.

(** Modelled from the spec: [find_by_id(id)] fails with NotFound ([None]
    here, a [KeyError] in the program) when the receipt is absent. *)
Definition manager_find_by_id (mgr : CommandExecutionManager)
  (receipt_id : string) : option CommandExecutionStatus :=
  entries mgr !! receipt_id.

(** Modelled from the spec: [cancel(receipt)] moves a pending receipt to
    [Cancelled] and takes it out of the sweep set; it notifies nobody and
    does nothing to a receipt that is already terminal. *)
Definition manager_cancel (receipt_id : string) (mgr : CommandExecutionManager)
  : CommandExecutionManager :=
  match entries mgr !! receipt_id with
  | Some st =>
      match status_state st with
      | Pending =>
          {| entries := <[receipt_id := status_cancel st]> (entries mgr);
             sweep_set := sweep_set mgr ∖ {[receipt_id]} |}
      | _ => mgr
      end
  | None => mgr
  end.

(** Modelled from the spec: [mark_as_clients_notified(receipt_id)] records
    that the requester has had its acknowledgment. *)
Definition manager_mark_as_clients_notified (receipt_id : string)
  (mgr : CommandExecutionManager) : CommandExecutionManager :=
  {| entries := alter status_mark_as_clients_notified receipt_id (entries mgr);
     sweep_set := sweep_set mgr |}.

(** [result.add_client_to_notify(client)] on the receipt object [result],
    which is the entry of the manager with that id. *)
Definition manager_add_client_to_notify (receipt_id client : string)
  (mgr : CommandExecutionManager) : CommandExecutionManager :=
  {| entries := alter (status_add_client_to_notify client) receipt_id
                  (entries mgr);
     sweep_set := sweep_set mgr |}.

(** What [dispatch_to_uavs] does to a receipt it hands to the sender: the
    sender joins the clients to notify and the receipt is marked as
    acknowledged. *)
Definition acknowledge (client : string) (st : CommandExecutionStatus)
  : CommandExecutionStatus :=
  status_mark_as_clients_notified (status_add_client_to_notify client st).

(** What a driver reports for one vehicle: a plain value ([True] for
    success, anything else a failure reason) or a receipt of an asynchronous
    command. *)
Inductive outcome : Type :=
  | OValue (v : pyval)
  | OReceipt (receipt_id : string).

#[global] Instance outcome_eq_dec : EqDecision outcome.
Proof. solve_decision. Defined.

(** A driver method takes the vehicles and the keyword parameters; it may
    create receipts in the command execution manager, and it returns a
    mapping from vehicles to outcomes or raises. *)
Definition driver_method : Type :=
  list UAV → gmap string field → CommandExecutionManager →
  CommandExecutionManager * (exn + list (UAV * outcome)).

(** A driver is seen through attribute lookup: a name yields a method or
    the lookup raises. *)
Record UAVDriver : Type := {
  driver_attr : string → exn + driver_method
}.

(** [getattr(driver, name)]; a name that is not a string ([None]) is a
    [TypeError] whatever the driver. *)
Definition getattr (driver : UAVDriver) (name : option string)
  : exn + driver_method :=
  match name with
  | None => inl (TypeError "getattr(): attribute name must be string")
  | Some n => driver_attr driver n
  end.

(** ** Device tree subscriptions *)

(** Modelled from the spec: a path is a slash-delimited address into the
    device tree; its segments are the non-empty pieces between slashes. *)
Fixpoint split_path_go (cur : string) (s : string) : list string :=
  match s with
  | EmptyString => if decide (cur = "") then [] else [cur]
  | String c s' =>
      if decide (c = "/"%char)
      then (if decide (cur = "") then [] else [cur]) ++ split_path_go "" s'
      else split_path_go (cur +:+ String c EmptyString) s'
  end.

Definition path_segments (p : string) : list string := split_path_go "" p.

Fixpoint segments_prefix (p q : list string) : bool :=
  match p, q with
  | [], _ => true
  | x :: p', y :: q' => bool_decide (x = y) && segments_prefix p' q'
  | _ :: _, [] => false
  end.

(** Modelled from the spec: [q] falls at or under the root [p]. *)
Definition at_or_under (p q : string) : bool :=
  segments_prefix (path_segments p) (path_segments q).

Definition under_any (roots : list string) (q : string) : bool :=
  existsb (λ p, at_or_under p q) roots.

Inductive subscription_error : Type :=
  | NoSuchPathError
  | ClientNotSubscribedError.

(** Modelled from the spec: [DeviceTreeSubscriptionManager] of
    [flockwave.server.model.devices] (absent from the sources at hand).  It
    knows the paths of the device tree and keeps, per client, the multiset
    of paths the client is subscribed to (a [Counter] in the program). *)
Record DeviceTreeSubscriptionManager : Type := {
  tree_paths : gset string;
  subscriptions : gmap string (gmultiset string)
}.

Definition subscriptions_of (mgr : DeviceTreeSubscriptionManager)
  (client : string) : gmultiset string :=
  default ∅ (subscriptions mgr !! client).

(** Modelled from the spec: [subscribe(client, path)] fails with NoSuchPath
    when the path is not a node of the tree and adds one subscription
    otherwise. *)
Definition subscribe (client path : string)
  (mgr : DeviceTreeSubscriptionManager)
  : subscription_error + DeviceTreeSubscriptionManager :=
  if decide (path ∈ tree_paths mgr)
  then inr {| tree_paths := tree_paths mgr;
              subscriptions := <[client := {[+ path +]} ⊎ subscriptions_of mgr client]>
                                 (subscriptions mgr) |}
  else inl NoSuchPathError.

(** Modelled from the spec: [unsubscribe(client, path, force)] fails with
    ClientNotSubscribed when the client has no subscription to the path;
    with [force] it removes the path whatever its count, without it the
    count goes down by one. *)
Definition unsubscribe (client path : string) (force : bool)
  (mgr : DeviceTreeSubscriptionManager)
  : subscription_error + DeviceTreeSubscriptionManager :=
  let subs := subscriptions_of mgr client in
  if decide (multiplicity path subs = 0)
  then inl ClientNotSubscribedError
  else
    let removed :=
      if force then multiplicity path subs *: {[+ path +]} else {[+ path +]} in
    inr {| tree_paths := tree_paths mgr;
           subscriptions := <[client := subs ∖ removed]> (subscriptions mgr) |}.

(** Modelled from the spec: [list_subscriptions(client, path_filter)] is
    every path the client is subscribed to that falls at or under one of the
    filter roots, with its count. *)
Definition list_subscriptions (client : string) (path_filter : list string)
  (mgr : DeviceTreeSubscriptionManager) : gmultiset string :=
  filter (λ q, under_any path_filter q = true) (subscriptions_of mgr client).

(** ** Registries *)

(** Modelled from the spec: a registry exposes [find_by_id(id)], which
    fails with NotFound ([None] here, a [KeyError] in the program) when the
    id is absent. *)
Class Registry (R E : Type) := find_by_id : R → string → option E.

#[global] Instance UAVRegistry_find : Registry (gmap string UAV) UAV :=
  λ registry uav_id, registry !! uav_id.

#[global] Instance CommandExecutionManager_find
  : Registry CommandExecutionManager CommandExecutionStatus :=
  manager_find_by_id.

(** ** The application object *)

(** The attributes of [FlockwaveServer] that the modelled methods touch.
    [drivers] resolves the [driver] attribute of a vehicle to the driver
    object; [log] is what [log.exception] has been given; [driver_calls] is
    the trace of driver methods invoked so far, kept for stating which
    vehicles reach a driver. *)
Record FlockwaveServer : Type := {
  uav_registry : gmap string UAV;
  drivers : string → UAVDriver;
  command_execution_manager : CommandExecutionManager;
  device_tree_subscriptions : DeviceTreeSubscriptionManager;
  message_hub : MessageHub;
  log : list exn;
  driver_calls : list (string * list UAV)
}.

Definition set_command_execution_manager (mgr : CommandExecutionManager)
  (app : FlockwaveServer) : FlockwaveServer :=
  {| uav_registry := uav_registry app; drivers := drivers app;
     command_execution_manager := mgr;
     device_tree_subscriptions := device_tree_subscriptions app;
     message_hub := message_hub app; log := log app;
     driver_calls := driver_calls app |}.

Definition set_device_tree_subscriptions (mgr : DeviceTreeSubscriptionManager)
  (app : FlockwaveServer) : FlockwaveServer :=
  {| uav_registry := uav_registry app; drivers := drivers app;
     command_execution_manager := command_execution_manager app;
     device_tree_subscriptions := mgr;
     message_hub := message_hub app; log := log app;
     driver_calls := driver_calls app |}.

Definition set_message_hub (hub : MessageHub) (app : FlockwaveServer)
  : FlockwaveServer :=
  {| uav_registry := uav_registry app; drivers := drivers app;
     command_execution_manager := command_execution_manager app;
     device_tree_subscriptions := device_tree_subscriptions app;
     message_hub := hub; log := log app;
     driver_calls := driver_calls app |}.

Definition log_exception (ex : exn) (app : FlockwaveServer) : FlockwaveServer :=
  {| uav_registry := uav_registry app; drivers := drivers app;
     command_execution_manager := command_execution_manager app;
     device_tree_subscriptions := device_tree_subscriptions app;
     message_hub := message_hub app; log := log app ++ [ex];
     driver_calls := driver_calls app |}.

Definition record_driver_call (driver : string) (uavs : list UAV)
  (app : FlockwaveServer) : FlockwaveServer :=
  {| uav_registry := uav_registry app; drivers := drivers app;
     command_execution_manager := command_execution_manager app;
     device_tree_subscriptions := device_tree_subscriptions app;
     message_hub := message_hub app; log := log app;
     driver_calls := driver_calls app ++ [(driver, uavs)] |}.

(** ** The monad of methods: application state and exceptions *)

Definition M (A : Type) : Type :=
  FlockwaveServer → FlockwaveServer * (exn + A).

Definition ret {A} (a : A) : M A := λ app, (app, inr a).

Definition raise {A} (e : exn) : M A := λ app, (app, inl e).

Definition bind {A B} (m : M A) (k : A → M B) : M B :=
  λ app,
    match m app with
    | (app', inr a) => k a app'
    | (app', inl e) => (app', inl e)
    end.

Notation "'do' x <- m ; k" := (bind m (λ x, k))
  (at level 10, x pattern, m at level 100, k at level 200,
   format "'[v' 'do'  x  <-  m ; '/' k ']'").

Definition modify (f : FlockwaveServer → FlockwaveServer) : M unit :=
  λ app, (f app, inr tt).

Definition lift {A} (r : exn + A) : M A := λ app, (app, r).

(** [for x in l: acc = body(x, acc)], stopping at the first exception. *)
Fixpoint for_each {X A} (l : list X) (body : X → A → M A) (acc : A) : M A :=
  match l with
  | [] => ret acc
  | x :: l' => do acc' <- body x acc; for_each l' body acc'
  end.

(** [self.message_hub.send_message(message, to=...)] *)
Definition send_message (message : FlockwaveMessage) (to : option string)
  : M unit :=
  modify (λ app, set_message_hub (hub_send message to (message_hub app)) app).

(** ** Iteration and dictionaries *)

Fixpoint characters (s : string) : list string :=
  match s with
  | EmptyString => []
  | String c s' => String c EmptyString :: characters s'
  end.

(** [for x in f]: the items of a list, the keys of a mapping, the
    characters of a string; other scalars are not iterable. *)
Definition py_iter (f : field) : exn + list string :=
  match f with
  | FList l => inr l
  | FDict d => inr (elements (dom d))
  | FVal (PyStr s) => inr (characters s)
  | FVal _ => inl (TypeError "object is not iterable")
  end.

(** [d.pop(key)] *)
Definition dict_pop (key : string) (d : gmap string field)
  : exn + (field * gmap string field) :=
  match d !! key with
  | Some v => inr (v, delete key d)
  | None => inl (KeyError key)
  end.

(** [d[key]] *)
Definition dict_getitem (key : string) (d : gmap string field) : exn + field :=
  match d !! key with
  | Some v => inr v
  | None => inl (KeyError key)
  end.

(** [d.get(key, dflt)] *)
Definition dict_get (key : string) (dflt : field) (d : gmap string field)
  : field :=
  default dflt (d !! key).

(** [result[key].append(value)] on a [defaultdict(list)]; the groups are
    kept in the order in which their keys were first seen. *)
Fixpoint defaultdict_append {V} (key : string) (value : V)
  (d : list (string * list V)) : list (string * list V) :=
  match d with
  | [] => [(key, [value])]
  | (k, vs) :: d' =>
      if decide (k = key) then (k, vs ++ [value]) :: d'
      else (k, vs) :: defaultdict_append key value d'
  end.

(** [d[key]] on a [defaultdict(list)]: the list under the key, empty when
    the key has not been seen. *)
Fixpoint defaultdict_get {V} (key : string) (d : list (string * list V))
  : list V :=
  match d with
  | [] => []
  | (k, vs) :: d' => if decide (k = key) then vs else defaultdict_get key d'
  end.

(** ** Lookups that record failures *)

(** [FlockwaveServer._find_in_registry]: the entry, or [None] with a
    failure registered in the response. *)
Definition _find_in_registry {R E} `{Registry R E} (registry : R)
  (entry_id : string) (response : FlockwaveResponse) (failure_reason : pyval)
  : option E * FlockwaveResponse :=
  match find_by_id registry entry_id with
  | Some entry => (Some entry, response)
  | None => (None, add_failure entry_id failure_reason response)
  end.

Definition _find_uav_by_id (app : FlockwaveServer) (uav_id : string)
  (response : FlockwaveResponse) : option UAV * FlockwaveResponse :=
  _find_in_registry (uav_registry app) uav_id response (PyStr "No such UAV").

Definition _find_command_receipt_by_id (app : FlockwaveServer)
  (receipt_id : string) (response : FlockwaveResponse)
  : option CommandExecutionStatus * FlockwaveResponse :=
  _find_in_registry (command_execution_manager app) receipt_id response
    (PyStr "No such receipt").

(** [FlockwaveServer._sort_uavs_by_drivers]: the loop, with the mapping
    built so far and the response as accumulators. *)
Fixpoint _sort_uavs_by_drivers_from (app : FlockwaveServer)
  (uav_ids : list string) (result : list (string * list UAV))
  (response : FlockwaveResponse)
  : list (string * list UAV) * FlockwaveResponse :=
  match uav_ids with
  | [] => (result, response)
  | uav_id :: rest =>
      match _find_uav_by_id app uav_id response with
      | (Some uav, response') =>
          _sort_uavs_by_drivers_from app rest
            (defaultdict_append (uav_driver uav) uav result) response'
      | (None, response') =>
          _sort_uavs_by_drivers_from app rest result response'
      end
  end.

Definition _sort_uavs_by_drivers (app : FlockwaveServer)
  (uav_ids : list string) (response : FlockwaveResponse)
  : list (string * list UAV) * FlockwaveResponse :=
  _sort_uavs_by_drivers_from app uav_ids [] response.

(** ** [FlockwaveServer.dispatch_to_uavs] *)

Definition get_app : M FlockwaveServer := λ app, (app, inr app).

(** [try: m  except <classes>: handler]; [handler ex] is [None] when no
    [except] clause matches, and the exception then propagates. *)
Definition try_except {A} (m : M A) (handler : exn → option (M A)) : M A :=
  λ app,
    match m app with
    | (app', inl ex) =>
        match handler ex with
        | Some h => h app'
        | None => (app', inl ex)
        end
    | (app', inr a) => (app', inr a)
    end.

(** The table from message types to driver methods, read with
    [.get(message_type, None)]. *)
Definition method_name_for (message_type : field) : exn + option string :=
  match message_type with
  | FVal (PyStr s) =>
      inr (if decide (s = "CMD-REQ") then Some "send_command"
           else if decide (s = "UAV-LAND") then Some "send_landing_signal"
           else if decide (s = "UAV-TAKEOFF") then Some "send_takeoff_signal"
           else None)
  | FVal _ => inr None
  | FList _ | FDict _ => inl (TypeError "unhashable type")
  end.

(** Look up the method in the driver. *)
Definition lookup_method (driver : string) (method_name : option string)
  : M (option string * option driver_method) :=
  try_except
    (do app <- get_app;
     do method <- lift (getattr (drivers app driver) method_name);
     ret (None, Some method))
    (λ ex,
       if isinstance ex "RuntimeError" || isinstance ex "TypeError"
       then Some (ret (Some "Operation not supported", None))
       else None).

(** [method(uavs, **parameters)] *)
Definition call_method (driver : string) (method : driver_method)
  (uavs : list UAV) (parameters : gmap string field)
  : M (list (UAV * outcome)) :=
  λ app,
    let '(mgr, r) := method uavs parameters (command_execution_manager app) in
    (record_driver_call driver uavs (set_command_execution_manager mgr app), r).

(** Execute the method and catch all runtime errors. *)
Definition execute_method (driver : string) (method : option driver_method)
  (common_error : option string) (uavs : list UAV)
  (parameters : gmap string field)
  : M (option string * option (list (UAV * outcome))) :=
  match method with
  | Some m =>
      try_except
        (do results <- call_method driver m uavs parameters;
         ret (common_error, Some results))
        (λ ex,
           if isinstance ex "NotImplementedError"
           then Some (ret (Some "Operation not implemented", None))
           else if isinstance ex "NotSupportedError"
           then Some (ret (Some "Operation not supported", None))
           else if isinstance ex "RuntimeError"
           then Some (do _ <- modify (log_exception ex);
                      ret (Some ("Unexpected error: " +:+ exn_str ex), None))
           else None)
  | None => ret (common_error, None)
  end.

(** The body of the loop over the results of one driver. *)
Definition record_result (sender : Client) (item : UAV * outcome)
  (response : FlockwaveResponse) : M FlockwaveResponse :=
  let '(uav, result) := item in
  match result with
  | OValue v =>
      if is_True v then ret (add_success (uav_id uav) response)
      else ret (add_failure (uav_id uav) v response)
  | OReceipt receipt_id =>
      let response := add_receipt (uav_id uav) receipt_id response in
      do _ <- modify (λ app,
                set_command_execution_manager
                  (manager_add_client_to_notify receipt_id (client_id sender)
                     (command_execution_manager app)) app);
      do _ <- modify (λ app,
                set_command_execution_manager
                  (manager_mark_as_clients_notified receipt_id
                     (command_execution_manager app)) app);
      ret response
  end.

(** Update the response. *)
Definition update_response (sender : Client) (uavs : list UAV)
  (common_error : option string) (results : option (list (UAV * outcome)))
  (response : FlockwaveResponse) : M FlockwaveResponse :=
  match common_error with
  | Some err =>
      for_each uavs
        (λ uav response, ret (add_failure (uav_id uav) (PyStr err) response))
        response
  | None =>
      match results with
      | Some results => for_each results (record_result sender) response
      | None => raise (AttributeError "'NoneType' object has no attribute 'items'")
      end
  end.

(** The body of the loop over the drivers. *)
Definition dispatch_to_driver (sender : Client) (method_name : option string)
  (parameters : gmap string field) (group : string * list UAV)
  (response : FlockwaveResponse) : M FlockwaveResponse :=
  let '(driver, uavs) := group in
  do (common_error, method) <- lookup_method driver method_name;
  do (common_error, results) <-
    execute_method driver method common_error uavs parameters;
  update_response sender uavs common_error results response.

Definition dispatch_to_uavs (message : FlockwaveMessage) (sender : Client)
  : M FlockwaveResponse :=
  let response := create_response_or_notification ∅ (Some message) in
  let parameters := body message in
  do (message_type, parameters) <- lift (dict_pop "type" parameters);
  do (uav_ids, parameters) <- lift (dict_pop "ids" parameters);
  do uav_ids <- lift (py_iter uav_ids);
  do app <- get_app;
  let '(uavs_by_drivers, response) :=
    _sort_uavs_by_drivers app uav_ids response in
  do method_name <- lift (method_name_for message_type);
  for_each uavs_by_drivers (dispatch_to_driver sender method_name parameters)
    response.

(** ** Reading a ledger *)

(** The response after [add_failure(uav.id, err)] for each of [uavs]. *)
Definition add_failures (uavs : list UAV) (err : string)
  (response : FlockwaveResponse) : FlockwaveResponse :=
  foldl (λ r uav, add_failure (uav_id uav) (PyStr err) r) response uavs.

(** The ids a ledger has an outcome for. *)
Definition ledger_keys (r : FlockwaveResponse) : gset string :=
  list_to_set (success r) ∪ dom (failure r) ∪ dom (receipt r).

(** How many outcomes a ledger holds for an id: its occurrences in
    [success], plus one if it is a key of [failure], plus one if it is a key
    of [receipt]. *)
Definition outcomes_of (i : string) (r : FlockwaveResponse) : nat :=
  length (filter (λ j, j = i) (success r))
  + (if failure r !! i is Some _ then 1 else 0)
  + (if receipt r !! i is Some _ then 1 else 0).

(** The registry files every vehicle under its own id. *)
Definition registry_consistent (app : FlockwaveServer) : Prop :=
  ∀ i uav, uav_registry app !! i = Some uav → uav_id uav = i.

(** A result mapping has one outcome per vehicle passed: its keys are
    distinct (it is a dictionary) and they are the vehicles passed. *)
Definition one_outcome_per_vehicle (uavs : list UAV)
  (results : list (UAV * outcome)) : Prop :=
  NoDup results.*1 ∧ ∀ uav, uav ∈ results.*1 ↔ uav ∈ uavs.

(** The exceptions of a driver call that [dispatch_to_uavs] handles. *)
Definition handled_by_call (ex : exn) : bool :=
  isinstance ex "NotImplementedError" || isinstance ex "NotSupportedError"
  || isinstance ex "RuntimeError".

(** The exceptions of a method lookup that [dispatch_to_uavs] handles. *)
Definition handled_by_lookup (ex : exn) : bool :=
  isinstance ex "RuntimeError" || isinstance ex "TypeError".

(** Every driver that owns a registered vehicle answers the call of the
    method [method_name] with one outcome per vehicle passed, or fails in a
    way that [dispatch_to_uavs] handles. *)
Definition drivers_answer (app : FlockwaveServer) (method_name : option string)
  (parameters : gmap string field) : Prop :=
  ∀ i uav uavs mgr,
    uav_registry app !! i = Some uav →
    match getattr (drivers app (uav_driver uav)) method_name with
    | inl ex => handled_by_lookup ex = true
    | inr m =>
        match m uavs parameters mgr with
        | (_, inr results) => one_outcome_per_vehicle uavs results
        | (_, inl ex) => handled_by_call ex = true
        end
    end.

(** ** Receipts: cancellation, completion, timeout *)

(** The body of the loop of [create_CMD_DEL_message_for]. *)
Definition cancel_receipt (receipt_id : string) (response : FlockwaveResponse)
  : M FlockwaveResponse :=
  do app <- get_app;
  match _find_command_receipt_by_id app receipt_id response with
  | (Some entry, response) =>
      do _ <- modify (λ app,
                set_command_execution_manager
                  (manager_cancel receipt_id (command_execution_manager app))
                  app);
      ret (add_success receipt_id response)
  | (None, response) => ret response
  end.

(** [FlockwaveServer.create_CMD_DEL_message_for]; [cancel(entry)] acts on
    the receipt object that was found under [receipt_id]. *)
Definition create_CMD_DEL_message_for (receipt_ids : list string)
  (in_response_to : option FlockwaveMessage) : M FlockwaveResponse :=
  let body : gmap string field := {[ "type" := FVal (PyStr "CMD-INF") ]} in
  let response := create_response_or_notification body in_response_to in
  for_each receipt_ids cancel_receipt response.

(** [FlockwaveServer._on_command_execution_finished] *)
Definition _on_command_execution_finished (status : CommandExecutionStatus)
  : M unit :=
  let body : gmap string field :=
    {[ "type" := FVal (PyStr "CMD-RESP");
       "id" := FVal (PyStr (status_id status));
       "response" := FVal (if decide (status_response status = PyNone)
                           then PyStr ""
                           else status_response status) ]} in
  let message := create_response_or_notification body None in
  for_each (elements (clients_to_notify status))
    (λ client_id _, send_message message (Some client_id)) tt.

(** The first loop of [_on_command_execution_timeout], from the dictionary
    [d] built so far: receipt ids sorted by the clients to notify. *)
Definition group_statuses (d : list (string * list string))
  (statuses : list CommandExecutionStatus) : list (string * list string) :=
  foldl
    (λ d status,
       foldl (λ d client, defaultdict_append client (status_id status) d)
         d (elements (clients_to_notify status)))
    d statuses.

Definition receipt_ids_by_clients (statuses : list CommandExecutionStatus)
  : list (string * list string) :=
  group_statuses [] statuses.

(** The body of the second loop of [_on_command_execution_timeout]. *)
Definition send_timeout (item : string * list string) (_ : unit) : M unit :=
  let '(client, receipt_ids) := item in
  let body : gmap string field :=
    {[ "type" := FVal (PyStr "CMD-TIMEOUT"); "ids" := FList receipt_ids ]} in
  let message := create_response_or_notification body None in
  send_message message (Some client).

(** [FlockwaveServer._on_command_execution_timeout] *)
Definition _on_command_execution_timeout
  (statuses : list CommandExecutionStatus) : M unit :=
  for_each (receipt_ids_by_clients statuses) send_timeout tt.

(** ** Vehicle status broadcasts *)

(** The loop of [create_UAV_INF_message_for]: the statuses found and the
    failures registered. *)
Fixpoint collect_uav_statuses (app : FlockwaveServer) (uav_ids : list string)
  (statuses : gmap string pyval) (response : FlockwaveResponse)
  : gmap string pyval * FlockwaveResponse :=
  match uav_ids with
  | [] => (statuses, response)
  | uav_id :: rest =>
      match _find_uav_by_id app uav_id response with
      | (Some uav, response') =>
          collect_uav_statuses app rest
            (<[uav_id := uav_status uav]> statuses) response'
      | (None, response') => collect_uav_statuses app rest statuses response'
      end
  end.

(** [FlockwaveServer.create_UAV_INF_message_for]; the body refers to the
    dictionary [statuses], so it shows the entries the loop has added. *)
Definition create_UAV_INF_message_for (app : FlockwaveServer)
  (uav_ids : list string) (in_response_to : option FlockwaveMessage)
  : FlockwaveMessage :=
  let response := create_response_or_notification ∅ in_response_to in
  let '(statuses, response) := collect_uav_statuses app uav_ids ∅ response in
  {| body := {[ "status" := FDict statuses; "type" := FVal (PyStr "UAV-INF") ]};
     correlation_id := correlation_id response;
     success := success response; failure := failure response;
     receipt := receipt response |}.

(** [FlockwaveServer.request_to_send_UAV_INF_message_for] *)
Definition request_to_send_UAV_INF_message_for (uav_ids : list string)
  : M unit :=
  do app <- get_app;
  let message := create_UAV_INF_message_for app uav_ids None in
  send_message message None.

(** ** Device tree subscriptions *)

(** The body of the loop of [create_DEV_UNSUB_message_for]. *)
Definition unsubscribe_path (client : Client) (remove_all : bool)
  (path : string) (response : FlockwaveResponse) : M FlockwaveResponse :=
  do app <- get_app;
  match unsubscribe (client_id client) path remove_all
          (device_tree_subscriptions app) with
  | inl NoSuchPathError =>
      ret (add_failure path (PyStr "No such device tree path") response)
  | inl ClientNotSubscribedError =>
      ret (add_failure path (PyStr "Not subscribed to this path") response)
  | inr mgr =>
      do _ <- modify (set_device_tree_subscriptions mgr);
      ret (add_success path response)
  end.

(** [FlockwaveServer.create_DEV_UNSUB_message_for]; iterating over the
    [Counter] that [list_subscriptions] returns visits each subscribed path
    once. *)
Definition create_DEV_UNSUB_message_for (client : Client)
  (paths : list string) (in_response_to : option FlockwaveMessage)
  (remove_all include_subtrees : bool) : M FlockwaveResponse :=
  let response := create_response_or_notification ∅ in_response_to in
  do app <- get_app;
  let paths :=
    if include_subtrees
    then elements (dom (list_subscriptions (client_id client) paths
                          (device_tree_subscriptions app)))
    else paths in
  for_each paths (unsubscribe_path client remove_all) response.

(** ** Message handlers *)

Definition handle_CMD_DEL (message : FlockwaveMessage) (sender : Client)
  : M FlockwaveResponse :=
  do ids <- lift (dict_getitem "ids" (body message));
  do receipt_ids <- lift (py_iter ids);
  create_CMD_DEL_message_for receipt_ids (Some message).

Definition handle_DEV_UNSUB (message : FlockwaveMessage) (sender : Client)
  : M FlockwaveResponse :=
  do paths <- lift (dict_getitem "paths" (body message));
  do paths <- lift (py_iter paths);
  create_DEV_UNSUB_message_for sender paths (Some message)
    (truthy (dict_get "removeAll" (FVal (PyBool false)) (body message)))
    (truthy (dict_get "includeSubtrees" (FVal (PyBool false)) (body message))).

Definition handle_UAV_operations (message : FlockwaveMessage) (sender : Client)
  : M FlockwaveResponse :=
  dispatch_to_uavs message sender.

(** ** Subscribing and listing subscriptions *)

(** The body of the loop of [create_DEV_SUB_message_for]. *)
Definition subscribe_path (client : Client) (path : string)
  (response : FlockwaveResponse) : M FlockwaveResponse :=
  do app <- get_app;
  match subscribe (client_id client) path (device_tree_subscriptions app) with
  | inl NoSuchPathError =>
      ret (add_failure path (PyStr "No such device tree path") response)
  | inl ClientNotSubscribedError =>
      raise (Exn ["ClientNotSubscribedError"; "Exception"] path)
  | inr mgr =>
      do _ <- modify (set_device_tree_subscriptions mgr);
      ret (add_success path response)
  end.

(** [FlockwaveServer.create_DEV_SUB_message_for]; only [NoSuchPathError] is
    caught. *)
Definition create_DEV_SUB_message_for (client : Client) (paths : list string)
  (in_response_to : option FlockwaveMessage) : M FlockwaveResponse :=
  let response := create_response_or_notification ∅ in_response_to in
  for_each paths (subscribe_path client) response.

(** [FlockwaveServer.create_DEV_LISTSUB_message_for];
    [subscriptions.elements()] repeats each path as many times as the
    client is subscribed to it. *)
Definition create_DEV_LISTSUB_message_for (app : FlockwaveServer)
  (client : Client) (path_filter : list string)
  (in_response_to : option FlockwaveMessage) : FlockwaveMessage :=
  let subscriptions :=
    list_subscriptions (client_id client) path_filter
      (device_tree_subscriptions app) in
  let body : gmap string field :=
    {[ "paths" := FList (elements subscriptions);
       "type" := FVal (PyStr "DEV-LISTSUB") ]} in
  create_response_or_notification body in_response_to.

Definition handle_DEV_SUB (message : FlockwaveMessage) (sender : Client)
  : M FlockwaveResponse :=
  do paths <- lift (dict_getitem "paths" (body message));
  do paths <- lift (py_iter paths);
  create_DEV_SUB_message_for sender paths (Some message).

Definition handle_DEV_LISTSUB (message : FlockwaveMessage) (sender : Client)
  : M FlockwaveMessage :=
  do path_filter <-
    lift (py_iter (dict_get "pathFilter" (FList ["/"]) (body message)));
  do app <- get_app;
  ret (create_DEV_LISTSUB_message_for app sender path_filter (Some message)).

Definition handle_UAV_INF (message : FlockwaveMessage) (sender : Client)
  : M FlockwaveMessage :=
  do ids <- lift (dict_getitem "ids" (body message));
  do uav_ids <- lift (py_iter ids);
  do app <- get_app;
  ret (create_UAV_INF_message_for app uav_ids (Some message)).

(** * GPS fixes ([flockwave/server/model/gps.py]) *)

Module gps.

(** [GPSFixType], an [IntEnum]. *)
Inductive GPSFixType : Type :=
  | NO_GPS | NO_FIX | FIX_2D | FIX_3D | DGPS | RTK_FLOAT | RTK_FIXED | STATIC.

#[global] Instance GPSFixType_eq_dec : EqDecision GPSFixType.
Proof. solve_decision. Defined.

(** The integer value of a member. *)
Definition value (t : GPSFixType) : Z :=
  match t with
  | NO_GPS => 0 | NO_FIX => 1 | FIX_2D => 2 | FIX_3D => 3
  | DGPS => 4 | RTK_FLOAT => 5 | RTK_FIXED => 6 | STATIC => 7
  end%Z.

(** [GPSFixType(v)]: the member with the value [v]; a [ValueError] when
    there is none (the text of the exception, which quotes [v], is cut
    down to its constant part). *)
Definition GPSFixType_of (v : Z) : exn + GPSFixType :=
  if decide (v = 0%Z) then inr NO_GPS
  else if decide (v = 1%Z) then inr NO_FIX
  else if decide (v = 2%Z) then inr FIX_2D
  else if decide (v = 3%Z) then inr FIX_3D
  else if decide (v = 4%Z) then inr DGPS
  else if decide (v = 5%Z) then inr RTK_FLOAT
  else if decide (v = 6%Z) then inr RTK_FIXED
  else if decide (v = 7%Z) then inr STATIC
  else inl (ValueError "not a valid GPSFixType").

(** [GPSFix], a dataclass; the defaults are [NO_GPS] and [None]. *)
Record GPSFix : Type := {
  type : GPSFixType;
  num_satellites : option Z
}.

Definition GPSFix_default : GPSFix :=
  {| type := NO_GPS; num_satellites := None |}.

(** What [update_from] may be given: an integer, a member of [GPSFixType]
    or another fix. *)
Inductive update_source : Type :=
  | FromInt (v : Z)
  | FromType (t : GPSFixType)
  | FromFix (other : GPSFix).

(** [GPSFix.update_from]: the fix after the call and the exception raised,
    if any.  A member of [GPSFixType] is an [int] as well ([IntEnum]), so it
    takes the first branch, where [GPSFixType(other)] looks it up by its
    value. *)
Definition update_from (other : update_source) (self : GPSFix)
  : GPSFix * option exn :=
  match other with
  | FromInt v =>
      match GPSFixType_of v with
      | inr t => ({| type := t; num_satellites := None |}, None)
      | inl ex => (self, Some ex)
      end
  | FromType t =>
      match GPSFixType_of (value t) with
      | inr t' => ({| type := t'; num_satellites := None |}, None)
      | inl ex => (self, Some ex)
      end
  | FromFix o =>
      ({| type := type o; num_satellites := num_satellites o |}, None)
  end.

End gps.

(** * Preflight checks ([flockwave/server/model/preflight.py]) *)

Module preflight.

Inductive PreflightCheckResult : Type :=
  | OFF | PASS | WARNING | RUNNING | SOFT_FAILURE | FAILURE | ERROR.

#[global] Instance PreflightCheckResult_eq_dec : EqDecision PreflightCheckResult.
Proof. solve_decision. Defined.

(** [_numeric_preflight_check_results], a [bidict]: the pairs of the
    table. *)
Definition _numeric_preflight_check_results
  : list (PreflightCheckResult * Z) :=
  [(OFF, 0); (PASS, 10); (WARNING, 20); (RUNNING, 30); (SOFT_FAILURE, 40);
   (FAILURE, 50); (ERROR, 60)]%Z.

(** [_numeric_preflight_check_results.get(result, dflt)] *)
Definition numeric_get (result : PreflightCheckResult) (dflt : Z) : Z :=
  default dflt
    ((λ found, found.2.2)
     <$> list_find (λ kv, kv.1 = result) _numeric_preflight_check_results).

(** [_numeric_preflight_check_results.inverse[v]]; [None] stands for the
    [KeyError] of a value that is not in the table. *)
Definition numeric_inverse (v : Z) : option PreflightCheckResult :=
  (λ found, found.2.1)
  <$> list_find (λ kv, kv.2 = v) _numeric_preflight_check_results.

(** [PreflightCheckItem]; a new item has the result [OFF]. *)
Record PreflightCheckItem : Type := {
  item_id : string;
  item_label : option string;
  item_result : PreflightCheckResult
}.

Definition new_item (id : string) (label : option string)
  : PreflightCheckItem :=
  {| item_id := id; item_label := label; item_result := OFF |}.

Record PreflightCheckInfo : Type := {
  _in_progress : bool;
  result : PreflightCheckResult;
  items : list PreflightCheckItem
}.

(** [max(...)] over a generator that yields [x] and then [xs]. *)
Definition py_max (x : Z) (xs : list Z) : Z := foldl Z.max x xs.

(** [PreflightCheckInfo._get_result_from_items]; [None] stands for the
    [KeyError] of the inverse lookup. *)
Definition _get_result_from_items (self : PreflightCheckInfo)
  : option (PreflightCheckResult * bool) :=
  match items self with
  | [] => Some (OFF, false)
  | item :: rest =>
      let running :=
        existsb (λ item, bool_decide (item_result item = RUNNING))
          (items self) in
      let result :=
        py_max (numeric_get (item_result item) 0)
          ((λ item, numeric_get (item_result item) 0) <$> rest) in
      match numeric_inverse result with
      | Some r => Some (r, running)
      | None => None
      end
  end.

(** [PreflightCheckInfo.update_summary] *)
Definition update_summary (self : PreflightCheckInfo)
  : option PreflightCheckInfo :=
  match _get_result_from_items self with
  | Some (r, running) =>
      Some {| _in_progress := running; result := r; items := items self |}
  | None => None
  end.

(** [PreflightCheckInfo.__init__] *)
Definition new_info : option PreflightCheckInfo :=
  update_summary {| _in_progress := false; result := OFF; items := [] |}.

(** [PreflightCheckInfo.add_item] *)
Definition add_item (id : string) (label : option string)
  (self : PreflightCheckInfo) : option PreflightCheckInfo :=
  update_summary
    {| _in_progress := _in_progress self; result := result self;
       items := items self ++ [new_item id label] |}.

(** [PreflightCheckInfo.failed] *)
Definition failed (self : PreflightCheckInfo) : bool :=
  bool_decide (result self ∈ [SOFT_FAILURE; FAILURE; ERROR]).

(** [PreflightCheckInfo.failed_conclusively] *)
Definition failed_conclusively (self : PreflightCheckInfo) : bool :=
  bool_decide (result self ∈ [FAILURE; ERROR]).

(** [PreflightCheckInfo.in_progress] *)
Definition in_progress (self : PreflightCheckInfo) : bool := _in_progress self.

End preflight.

(** ** Vocabulary of the properties *)

(** The vehicles the registry yields for the requested ids, in order. *)
Definition resolved (app : FlockwaveServer) (uav_ids : list string)
  : list UAV :=
  omap (λ i, uav_registry app !! i) uav_ids.

(** The ids of the vehicles of a list of driver groups. *)
Definition group_ids (groups : list (string * list UAV)) : list string :=
  uav_id <$> mjoin groups.*2.

(** What a stretch of [dispatch_to_uavs] leaves of the ledger [r0] in the
    ledger [r]: the ids in [ids] that had no outcome have exactly one, and
    every other id has what it had. *)
Definition ledger_step (ids : list string) (r0 r : FlockwaveResponse) : Prop :=
  (∀ i, i ∉ ids →
        outcomes_of i r = outcomes_of i r0
        ∧ failure r !! i = failure r0 !! i
        ∧ receipt r !! i = receipt r0 !! i
        ∧ (i ∈ success r ↔ i ∈ success r0))
  ∧ (∀ i, i ∈ ids → outcomes_of i r0 = 0 → outcomes_of i r = 1).

(** How many times a path (or an id) occurs in a list. *)
Definition occurrences (q : string) (l : list string) : nat :=
  length (filter (λ p, p = q) l).

(** The entry a ledger holds for a vehicle once its result is recorded. *)
Definition recorded (uav : UAV) (result : outcome) (r : FlockwaveResponse)
  : Prop :=
  match result with
  | OValue v =>
      if is_True v then uav_id uav ∈ success r
      else failure r !! uav_id uav = Some v
  | OReceipt receipt_id => receipt r !! uav_id uav = Some receipt_id
  end.

(** The invariant of the loop over the results of one driver, from the
    response [r0] and the application state [app0]. *)
Definition results_inv (sender : Client) (r0 : FlockwaveResponse)
  (app0 : FlockwaveServer) (done : list (UAV * outcome))
  (r : FlockwaveResponse) (app : FlockwaveServer) : Prop :=
  uav_registry app = uav_registry app0
  ∧ drivers app = drivers app0
  ∧ log app = log app0
  ∧ driver_calls app = driver_calls app0
  ∧ (∀ rid, entries (command_execution_manager app) !! rid
            = if decide (OReceipt rid ∈ done.*2)
              then acknowledge (client_id sender)
                     <$> entries (command_execution_manager app0) !! rid
              else entries (command_execution_manager app0) !! rid)
  ∧ (∀ i, i ∉ uav_id <$> done.*1 →
          outcomes_of i r = outcomes_of i r0
          ∧ failure r !! i = failure r0 !! i
          ∧ receipt r !! i = receipt r0 !! i
          ∧ (i ∈ success r ↔ i ∈ success r0))
  ∧ (∀ i, i ∈ uav_id <$> done.*1 → outcomes_of i r0 = 0 → outcomes_of i r = 1)
  ∧ (∀ uav result, (uav, result) ∈ done → recorded uav result r).

(** The ways in which a driver refuses an operation for a whole group,
    with the reason [dispatch_to_uavs] records: the lookup of the method
    fails with a [RuntimeError] or a [TypeError], the call raises
    [NotSupportedError], or the call raises [NotImplementedError]. *)
Inductive refuses (app : FlockwaveServer) (driver : string)
  (method_name : option string) (uavs : list UAV)
  (parameters : gmap string field) : string → Prop :=
  | refuses_lookup ex :
      getattr (drivers app driver) method_name = inl ex →
      handled_by_lookup ex = true →
      refuses app driver method_name uavs parameters "Operation not supported"
  | refuses_not_supported m mgr ex :
      getattr (drivers app driver) method_name = inr m →
      m uavs parameters (command_execution_manager app) = (mgr, inl ex) →
      isinstance ex "NotImplementedError" = false →
      isinstance ex "NotSupportedError" = true →
      refuses app driver method_name uavs parameters "Operation not supported"
  | refuses_not_implemented m mgr ex :
      getattr (drivers app driver) method_name = inr m →
      m uavs parameters (command_execution_manager app) = (mgr, inl ex) →
      isinstance ex "NotImplementedError" = true →
      refuses app driver method_name uavs parameters
        "Operation not implemented".

(** ** A small fleet, for concrete runs *)

Definition example_uav (uav_id driver : string) : UAV :=
  {| uav_id := uav_id; uav_driver := driver; uav_status := PyStr "ok" |}.

Definition example_receipt (receipt_id : string) (clients : list string)
  : CommandExecutionStatus :=
  {| status_id := receipt_id; status_state := Pending;
     clients_to_notify := list_to_set clients;
     status_response := PyNone; clients_notified := false |}.

Definition example_manager : CommandExecutionManager :=
  {| entries := {[ "r1" := example_receipt "r1" ["c1"];
                   "r2" := example_receipt "r2" ["c1"];
                   "r3" := example_receipt "r3" ["c2"] ]};
     sweep_set := {[ "r1"; "r2"; "r3" ]} |}.

(** A driver method that reports [True] for the vehicle v1 and hands out
    the receipt r1 for every other vehicle. *)
Definition example_send_command : driver_method :=
  λ uavs parameters mgr,
    (mgr,
     inr ((λ uav, (uav, if decide (uav_id uav = "v1")
                        then OValue (PyBool true) else OReceipt "r1"))
          <$> remove_dups uavs)).

Definition example_raising (ex : exn) : driver_method :=
  λ uavs parameters mgr, (mgr, inl ex).

(** The driver d1 carries commands out; d2 has the methods but does not
    support them, d3 has not implemented them, d4 fails with a runtime
    error and d5 with a value error. *)
Definition example_drivers (driver : string) : UAVDriver :=
  {| driver_attr := λ name,
       if decide (driver = "d1") then inr example_send_command
       else if decide (driver = "d2")
            then inr (example_raising (NotSupportedError "unsupported"))
       else if decide (driver = "d3")
            then inr (example_raising (NotImplementedError "todo"))
       else if decide (driver = "d4")
            then inr (example_raising (RuntimeError "link down"))
       else inr (example_raising (ValueError "bad argument")) |}.

Definition example_app : FlockwaveServer :=
  {| uav_registry := {[ "v1" := example_uav "v1" "d1";
                        "v2" := example_uav "v2" "d1";
                        "v3" := example_uav "v3" "d2";
                        "v4" := example_uav "v4" "d3";
                        "v5" := example_uav "v5" "d4";
                        "v6" := example_uav "v6" "d5" ]};
     drivers := example_drivers;
     command_execution_manager := example_manager;
     device_tree_subscriptions :=
       {| tree_paths := {[ "/A"; "/A/b"; "/A/b/c"; "/B" ]};
          subscriptions := {[ "c1" := {[+ "/A/b"; "/A/b"; "/A/b/c"; "/B" +]} ]} |};
     message_hub := {| outbox := [] |};
     log := [];
     driver_calls := [] |}.

Definition example_request (message_type : string) (ids : list string)
  : FlockwaveMessage :=
  {| body := {[ "type" := FVal (PyStr message_type); "ids" := FList ids ]};
     correlation_id := Some "m1";
     success := []; failure := ∅; receipt := ∅ |}.

Definition example_client : Client := {| client_id := "c1" |}.

(** A DEV-UNSUB request for the subtree of /A that leaves [removeAll] out. *)
Definition example_unsub_request : FlockwaveMessage :=
  {| body := {[ "type" := FVal (PyStr "DEV-UNSUB");
                "paths" := FList ["/A"];
                "includeSubtrees" := FVal (PyBool true) ]};
     correlation_id := Some "m2";
     success := []; failure := ∅; receipt := ∅ |}.

Definition example_v1 : UAV := example_uav "v1" "d1".
Definition example_v2 : UAV := example_uav "v2" "d1".
Definition example_v3 : UAV := example_uav "v3" "d2".
Definition example_v4 : UAV := example_uav "v4" "d3".
Definition example_v5 : UAV := example_uav "v5" "d4".
Definition example_v6 : UAV := example_uav "v6" "d5".

(** The same server with the vehicles of the drivers d1 to d4 only. *)
Definition example_fleet_app : FlockwaveServer :=
  {| uav_registry := {[ "v1" := example_v1; "v2" := example_v2;
                        "v3" := example_v3; "v4" := example_v4;
                        "v5" := example_v5 ]};
     drivers := example_drivers;
     command_execution_manager := example_manager;
     device_tree_subscriptions := device_tree_subscriptions example_app;
     message_hub := {| outbox := [] |};
     log := [];
     driver_calls := [] |}.

Definition example_response : FlockwaveResponse :=
  create_response_or_notification ∅ (Some (example_request "CMD-REQ" [])).

(** * Properties *)

(** ** The monad *)

Section monad_facts.
Context {A B : Type}.

Lemma bind_ret_l (a : A) (k : A → M B) app : bind (ret a) k app = k a app.
Proof. reflexivity. Qed.

Lemma bind_ok (m : M A) (k : A → M B) app app' a :
  m app = (app', inr a) → bind m k app = k a app'.
Proof. unfold bind. by intros ->. Qed.

Lemma bind_raises (m : M A) (k : A → M B) app app' e :
  m app = (app', inl e) → bind m k app = (app', inl e).
Proof. unfold bind. by intros ->. Qed.

Lemma for_each_nil {X} (body : X → A → M A) acc app :
  for_each [] body acc app = (app, inr acc).
Proof. reflexivity. Qed.

Lemma for_each_cons {X} (x : X) l (body : X → A → M A) acc app :
  for_each (x :: l) body acc app = bind (body x acc) (for_each l body) app.
Proof. reflexivity. Qed.

Lemma for_each_app {X} (l1 l2 : list X) (body : X → A → M A) acc app :
  for_each (l1 ++ l2) body acc app
  = bind (for_each l1 body acc) (for_each l2 body) app.
Proof.
  revert acc app. induction l1 as [|x l1 IH]; intros acc app; [done|].
  simpl. unfold bind.
  destruct (body x acc app) as [app1 [e|acc1]]; [done|].
  apply IH.
Qed.
End monad_facts.

(** ** Cancelling receipts (CMD-DEL) *)

Lemma status_cancel_not_pending st : status_state (status_cancel st) ≠ Pending.
Proof. unfold status_cancel. by destruct (status_state st) eqn:E; simpl; rewrite ?E. Qed.

Lemma status_cancel_idemp st : status_cancel (status_cancel st) = status_cancel st.
Proof. unfold status_cancel. by destruct (status_state st) eqn:E; simpl; rewrite ?E. Qed.

Lemma manager_cancel_entries r r' mgr :
  entries (manager_cancel r mgr) !! r'
  = if decide (r = r') then status_cancel <$> entries mgr !! r'
    else entries mgr !! r'.
Proof.
  unfold manager_cancel.
  destruct (entries mgr !! r) as [st|] eqn:E.
  - destruct (status_state st) eqn:S; simpl;
      rewrite ?lookup_insert; case_decide; subst; rewrite ?E; simpl; try done;
      unfold status_cancel; by rewrite S.
  - case_decide; subst; by rewrite ?E.
Qed.

Lemma manager_cancel_sweep_set r mgr st :
  entries mgr !! r = Some st → status_state st = Pending →
  r ∉ sweep_set (manager_cancel r mgr).
Proof.
  intros E S. unfold manager_cancel. rewrite E, S. simpl. set_solver.
Qed.

Lemma manager_cancel_sweep_set_subseteq r mgr :
  sweep_set (manager_cancel r mgr) ⊆ sweep_set mgr.
Proof.
  unfold manager_cancel. destruct (entries mgr !! r) as [st|]; [|done].
  destruct (status_state st); simpl; set_solver.
Qed.

(** One turn of the loop of [create_CMD_DEL_message_for]. *)
Lemma cancel_receipt_run receipt_id response app :
  cancel_receipt receipt_id response app =
    match entries (command_execution_manager app) !! receipt_id with
    | Some _ =>
        (set_command_execution_manager
           (manager_cancel receipt_id (command_execution_manager app)) app,
         inr (add_success receipt_id response))
    | None =>
        (app, inr (add_failure receipt_id (PyStr "No such receipt") response))
    end.
Proof.
  unfold cancel_receipt, bind, get_app, _find_command_receipt_by_id,
    _find_in_registry, find_by_id, CommandExecutionManager_find,
    manager_find_by_id.
  by destruct (entries (command_execution_manager app) !! receipt_id).
Qed.

(** The loop as a whole: it never raises, and the ledger and the manager
    it leaves behind are determined by which ids the manager knew. *)
Lemma cancel_receipts_run receipt_ids : ∀ response app,
  ∃ app' response',
    for_each receipt_ids cancel_receipt response app = (app', inr response')
    ∧ body response' = body response
    ∧ (∀ r, r ∈ success response' ↔
            r ∈ success response
            ∨ (r ∈ receipt_ids
               ∧ is_Some (entries (command_execution_manager app) !! r)))
    ∧ (∀ r, failure response' !! r =
            if decide (r ∈ receipt_ids
                       ∧ entries (command_execution_manager app) !! r = None)
            then Some (PyStr "No such receipt")
            else failure response !! r)
    ∧ (∀ r, entries (command_execution_manager app') !! r =
            if decide (r ∈ receipt_ids)
            then status_cancel <$> entries (command_execution_manager app) !! r
            else entries (command_execution_manager app) !! r)
    ∧ (∀ r st, r ∈ receipt_ids →
            entries (command_execution_manager app) !! r = Some st →
            status_state st = Pending →
            r ∉ sweep_set (command_execution_manager app'))
    ∧ sweep_set (command_execution_manager app')
      ⊆ sweep_set (command_execution_manager app).
Proof.
  induction receipt_ids as [|x ids IH]; intros response app.
  - exists app, response. split; [done|]. split; [done|].
    split; [intros r; set_solver|].
    split; [intros r; case_decide as H; [set_solver|done]|].
    split; [intros r; case_decide as H; [set_solver|done]|].
    split; [set_solver|done].
  - rewrite for_each_cons. unfold bind. rewrite cancel_receipt_run.
    destruct (entries (command_execution_manager app) !! x) as [st|] eqn:E.
    + destruct (IH (add_success x response)
                  (set_command_execution_manager
                     (manager_cancel x (command_execution_manager app)) app))
        as (app' & response' & Hrun & Hbody & Hs & Hf & He & Hsw & Hsub).
      simpl in *. exists app', response'.
      split; [done|]. split; [done|].
      split.
      { intros r.
        rewrite Hs, manager_cancel_entries, elem_of_app, list_elem_of_singleton,
          elem_of_cons.
        case_decide; subst; rewrite ?fmap_is_Some; [rewrite E|]; naive_solver. }
      split.
      { intros r. rewrite Hf, manager_cancel_entries.
        repeat case_decide; subst; try done;
          rewrite ?E, ?fmap_None in *; set_solver. }
      split.
      { intros r. rewrite He, !manager_cancel_entries.
        destruct (decide (x = r)) as [->|Hne].
        - rewrite E. simpl. rewrite (decide_True (P := r ∈ r :: ids)) by by left.
          case_decide; simpl; by rewrite ?status_cancel_idemp.
        - destruct (decide (r ∈ ids)) as [Hin|Hin].
          + by rewrite decide_True by by right.
          + rewrite decide_False; [done|].
            intros [?|?]%elem_of_cons; [congruence|done]. }
      split; [|by etrans; [|apply manager_cancel_sweep_set_subseteq]].
      intros r st' Hin Hr Hp.
      destruct (decide (x = r)) as [->|Hne].
      * intros Hbad. apply Hsub in Hbad.
        by eapply manager_cancel_sweep_set in Hbad.
      * apply elem_of_cons in Hin as [?|Hin]; [congruence|].
        eapply Hsw; [done| |done].
        rewrite manager_cancel_entries. by rewrite decide_False.
    + destruct (IH (add_failure x (PyStr "No such receipt") response) app)
        as (app' & response' & Hrun & Hbody & Hs & Hf & He & Hsw & Hsub).
      simpl in *. exists app', response'.
      split; [done|]. split; [done|].
      split.
      { intros r. rewrite Hs, elem_of_cons. split.
        - intros [?|[? ?]]; [by left|right; split; [by right|done]].
        - intros [?|[[->|?] [? ?]]]; [by left|congruence|].
          right. split; [done|by eexists]. }
      split.
      { intros r. rewrite Hf. clear IH Hrun Hs Hf He Hsw Hsub.
        destruct (decide (x = r)) as [->|Hne].
        - rewrite lookup_insert_eq. repeat case_decide; try done; exfalso;
            match goal with H : ¬ (_ ∈ _ :: _ ∧ _) |- _ => apply H end;
            (split; [by left|done]).
        - rewrite lookup_insert_ne by done. repeat case_decide; try done; exfalso.
          + match goal with H : ¬ (_ ∈ _ :: _ ∧ _) |- _ => apply H end.
            destruct_and!. split; [by right|done].
          + match goal with H : ¬ (_ ∈ ids ∧ _) |- _ => apply H end.
            destruct_and!. split; [|done].
            match goal with H : _ ∈ _ :: _ |- _ =>
              apply elem_of_cons in H as [?|?] end; [congruence|done]. }
      split.
      { intros r. rewrite He. clear IH Hrun Hs Hf He Hsw Hsub.
        repeat case_decide; try done.
        - exfalso. match goal with H : ¬ (_ ∈ _ :: _) |- _ => apply H end.
          by right.
        - match goal with H : _ ∈ _ :: _ |- _ =>
            apply elem_of_cons in H as [->|?] end; [by rewrite E|done]. }
      split; [|done].
      intros r st' [->|Hin]%elem_of_cons Hr Hp; [congruence|]. by eapply Hsw.
Qed.

(** C10: the answer to a CMD-DEL request has the type field "CMD-INF"; each
    receipt id the manager knows is cancelled and recorded as a success, each
    id it does not know is recorded as a failure with the reason
    "No such receipt". *)
Theorem handle_CMD_DEL_ledger message sender receipt_ids app :
  body message !! "ids" = Some (FList receipt_ids) →
  ∃ app' response,
    handle_CMD_DEL message sender app = (app', inr response)
    ∧ body response !! "type" = Some (FVal (PyStr "CMD-INF"))
    ∧ ∀ receipt_id, receipt_id ∈ receipt_ids →
        match entries (command_execution_manager app) !! receipt_id with
        | Some entry =>
            receipt_id ∈ success response
            ∧ failure response !! receipt_id = None
            ∧ entries (command_execution_manager app') !! receipt_id
              = Some (status_cancel entry)
            ∧ (status_state entry = Pending →
               receipt_id ∉ sweep_set (command_execution_manager app'))
        | None =>
            failure response !! receipt_id = Some (PyStr "No such receipt")
            ∧ receipt_id ∉ success response
        end.
Proof.
  intros Hids.
  unfold handle_CMD_DEL, dict_getitem. rewrite Hids. simpl.
  unfold bind at 1. simpl. unfold bind at 1. simpl.
  unfold create_CMD_DEL_message_for.
  set (response := create_response_or_notification _ _).
  destruct (cancel_receipts_run receipt_ids response app)
    as (app' & response' & Hrun & Hbody & Hs & Hf & He & Hsw & _).
  exists app', response'. split; [done|]. split.
  { rewrite Hbody. subst response. simpl. by rewrite lookup_singleton_eq. }
  intros r Hr.
  destruct (entries (command_execution_manager app) !! r) as [entry|] eqn:E.
  - split; [apply Hs; right; split; [done|by rewrite E]|].
    split.
    { rewrite Hf. case_decide as H; [destruct H; congruence|done]. }
    split.
    { rewrite He. case_decide; [by rewrite E|done]. }
    intros Hp. by eapply Hsw.
  - split.
    { rewrite Hf. case_decide as H; [done|]. by destruct H. }
    intros [Hin|[_ [? ?]]]%Hs; [|congruence].
    subst response. simpl in Hin. by apply elem_of_nil in Hin.
Qed.

Lemma handle_CMD_DEL_ledger_witness :
  body (example_request "CMD-DEL" ["r1"; "r9"]) !! "ids"
  = Some (FList ["r1"; "r9"])
  ∧ ∃ app' response,
      handle_CMD_DEL (example_request "CMD-DEL" ["r1"; "r9"]) example_client
        example_app = (app', inr response)
      ∧ body response !! "type" = Some (FVal (PyStr "CMD-INF"))
      ∧ ∀ receipt_id, receipt_id ∈ ["r1"; "r9"] →
          match entries (command_execution_manager example_app) !! receipt_id with
          | Some entry =>
              receipt_id ∈ success response
              ∧ failure response !! receipt_id = None
              ∧ entries (command_execution_manager app') !! receipt_id
                = Some (status_cancel entry)
              ∧ (status_state entry = Pending →
                 receipt_id ∉ sweep_set (command_execution_manager app'))
          | None =>
              failure response !! receipt_id = Some (PyStr "No such receipt")
              ∧ receipt_id ∉ success response
          end.
Proof.
  split; [reflexivity|].
  apply (handle_CMD_DEL_ledger (example_request "CMD-DEL" ["r1"; "r9"])
           example_client ["r1"; "r9"] example_app).
  reflexivity.
Defined.

(** ** Dictionaries of lists *)

Section defaultdict_facts.
Context {V : Type}.
Implicit Types (d : list (string * list V)) (k : string) (v : V).

Lemma defaultdict_get_append k k' v d :
  defaultdict_get k' (defaultdict_append k v d)
  = if decide (k = k') then defaultdict_get k' d ++ [v]
    else defaultdict_get k' d.
Proof.
  induction d as [|[k0 vs] d IH]; simpl.
  - repeat case_decide; by subst.
  - destruct (decide (k0 = k)) as [->|Hne]; simpl.
    + repeat case_decide; by subst.
    + rewrite IH. repeat case_decide; by subst.
Qed.

Lemma defaultdict_keys_append k v d :
  (defaultdict_append k v d).*1
  = if decide (k ∈ d.*1) then d.*1 else d.*1 ++ [k].
Proof.
  induction d as [|[k0 vs] d IH]; csimpl; [done|].
  destruct (decide (k0 = k)) as [->|Hne]; csimpl.
  - rewrite decide_True; [done|by left].
  - rewrite IH. repeat case_decide; try done; exfalso.
    + match goal with H : ¬ (_ ∈ _ :: _) |- _ => apply H end. by right.
    + match goal with H : _ ∈ _ :: _ |- _ =>
        apply elem_of_cons in H as [?|?] end; [congruence|done].
Qed.

Lemma defaultdict_append_NoDup k v d :
  NoDup d.*1 → NoDup (defaultdict_append k v d).*1.
Proof.
  intros Hd. rewrite defaultdict_keys_append. case_decide; [done|].
  apply NoDup_app. split; [done|]. split; [set_solver|].
  apply NoDup_singleton.
Qed.

Lemma defaultdict_append_keys_elem k k' v d :
  k' ∈ (defaultdict_append k v d).*1 ↔ k' = k ∨ k' ∈ d.*1.
Proof. rewrite defaultdict_keys_append. case_decide; set_solver. Qed.

Lemma defaultdict_get_elem k vs d :
  NoDup d.*1 → (k, vs) ∈ d → defaultdict_get k d = vs.
Proof.
  induction d as [|[k0 vs0] d IH]; simpl; [by intros _ ?%elem_of_nil|].
  intros [Hk0 Hd]%NoDup_cons [Heq|Hin]%elem_of_cons.
  - simplify_eq. by rewrite decide_True.
  - rewrite decide_False; [by apply IH|].
    intros ->. apply Hk0. apply list_elem_of_fmap. by exists (k, vs).
Qed.
End defaultdict_facts.

(** ** What the hub has sent *)

Lemma send_message_run message to app :
  ∃ app', send_message message to app = (app', inr tt)
    ∧ outbox (message_hub app') = outbox (message_hub app) ++ [(message, to)].
Proof. by eexists. Qed.

(** A loop that sends one message per item appends exactly these messages
    to the outbox, in order, and never raises. *)
Lemma send_loop_run {X} (l : list X) (f : X → FlockwaveMessage * option string)
  (step : X → unit → M unit) :
  (∀ x u app, ∃ app', step x u app = (app', inr tt)
     ∧ outbox (message_hub app') = outbox (message_hub app) ++ [f x]) →
  ∀ app, ∃ app',
    for_each l step tt app = (app', inr tt)
    ∧ outbox (message_hub app') = outbox (message_hub app) ++ (f <$> l).
Proof.
  intros Hstep. induction l as [|x l IH]; intros app.
  - exists app. by rewrite app_nil_r.
  - destruct (Hstep x tt app) as (app1 & Hrun1 & Hout1).
    destruct (IH app1) as (app2 & Hrun2 & Hout2).
    exists app2. split.
    + rewrite for_each_cons. by erewrite bind_ok.
    + rewrite Hout2, Hout1, <-app_assoc. done.
Qed.

Lemma messages_to_unicasts client message (clients : list string) :
  NoDup clients →
  messages_to client ((λ c, (message, Some c)) <$> clients)
  = if decide (client ∈ clients) then [message] else [].
Proof.
  unfold messages_to. induction clients as [|c clients IH]; [done|].
  intros [Hc Hnd]%NoDup_cons. rewrite fmap_cons, filter_cons. cbn [snd].
  destruct (decide (c = client)) as [->|Hne].
  - rewrite decide_True by done. rewrite fmap_cons, (IH Hnd).
    rewrite decide_False by done. by rewrite decide_True by by left.
  - rewrite decide_False by congruence. rewrite (IH Hnd).
    destruct (decide (client ∈ clients)) as [Hin|Hin].
    + by rewrite decide_True by by right.
    + rewrite decide_False; [done|].
      intros [?|?]%elem_of_cons; [congruence|done].
Qed.

Lemma messages_to_grouped {V} client (g : list V → FlockwaveMessage)
  (d : list (string * list V)) :
  NoDup d.*1 →
  messages_to client ((λ item, (g item.2, Some item.1)) <$> d)
  = if decide (client ∈ d.*1) then [g (defaultdict_get client d)] else [].
Proof.
  unfold messages_to. induction d as [|[k x] d IH]; [done|].
  intros [Hk Hnd]%NoDup_cons. rewrite !fmap_cons, filter_cons. cbn [fst snd].
  destruct (decide (k = client)) as [->|Hne].
  - rewrite decide_True by done. rewrite fmap_cons, (IH Hnd). cbn [fst].
    rewrite decide_False by done. rewrite decide_True by by left.
    cbn [defaultdict_get]. by rewrite decide_True.
  - rewrite decide_False by congruence. rewrite (IH Hnd).
    cbn [defaultdict_get]. rewrite (decide_False (P := k = client)) by done.
    destruct (decide (client ∈ d.*1)) as [Hin|Hin].
    + by rewrite decide_True by by right.
    + rewrite decide_False; [done|].
      intros [?|?]%elem_of_cons; [congruence|done].
Qed.

(** ** Completion of a command (CMD-RESP) *)

(** C4: when a command has finished, the handler sends exactly one CMD-RESP
    notification to each client in [clients_to_notify], carrying the receipt
    id and the response, with the empty string in place of [None]; nobody
    else is sent anything. *)
Theorem _on_command_execution_finished_notifies status app :
  ∃ app' sent,
    _on_command_execution_finished status app = (app', inr tt)
    ∧ outbox (message_hub app') = outbox (message_hub app) ++ sent
    ∧ (∀ item, item ∈ sent →
         ∃ client, item.2 = Some client ∧ client ∈ clients_to_notify status)
    ∧ (∀ client, client ∈ clients_to_notify status →
         ∃ message,
           messages_to client sent = [message]
           ∧ correlation_id message = None
           ∧ body message !! "type" = Some (FVal (PyStr "CMD-RESP"))
           ∧ body message !! "id" = Some (FVal (PyStr (status_id status)))
           ∧ body message !! "response"
             = Some (FVal (match status_response status with
                           | PyNone => PyStr ""
                           | payload => payload
                           end)))
    ∧ (∀ client, client ∉ clients_to_notify status →
         messages_to client sent = []).
Proof.
  unfold _on_command_execution_finished.
  set (message := create_response_or_notification _ None).
  destruct (send_loop_run (elements (clients_to_notify status))
              (λ c, (message, Some c))
              (λ client_id _, send_message message (Some client_id))
              (λ x u a, send_message_run message (Some x) a) app)
    as (app' & Hrun & Hout).
  exists app', ((λ c, (message, Some c)) <$> elements (clients_to_notify status)).
  split; [done|]. split; [done|]. split.
  { intros item (c & -> & Hc)%list_elem_of_fmap. exists c.
    split; [done|]. by apply elem_of_elements. }
  split.
  - intros client Hc. exists message.
    rewrite messages_to_unicasts by apply NoDup_elements.
    rewrite decide_True by by apply elem_of_elements.
    split; [done|]. split; [done|]. subst message. simpl.
    repeat split; try by simplify_map_eq.
    rewrite lookup_insert_ne, lookup_insert_ne, lookup_singleton_eq by done.
    by destruct (status_response status).
  - intros client Hc.
    rewrite messages_to_unicasts by apply NoDup_elements.
    rewrite decide_False; [done|]. by rewrite elem_of_elements.
Qed.

(** ** Timeouts (CMD-TIMEOUT) *)

Section timeout_grouping.
Implicit Types (d : list (string * list string)) (c rid : string).

Lemma group_receipt_get c rid (clients : list string) : ∀ d,
  NoDup clients →
  defaultdict_get c
    (foldl (λ d client, defaultdict_append client rid d) d clients)
  = defaultdict_get c d ++ (if decide (c ∈ clients) then [rid] else []).
Proof.
  induction clients as [|x clients IH]; intros d Hnd; simpl.
  - by rewrite app_nil_r.
  - apply NoDup_cons in Hnd as [Hx Hnd].
    rewrite IH, defaultdict_get_append by done.
    destruct (decide (x = c)) as [->|Hne].
    + rewrite (decide_False (P := c ∈ clients)) by done.
      rewrite decide_True by set_solver. by rewrite app_nil_r.
    + repeat case_decide; try done; set_solver.
Qed.

Lemma group_receipt_keys c rid (clients : list string) : ∀ d,
  c ∈ (foldl (λ d client, defaultdict_append client rid d) d clients).*1
  ↔ c ∈ clients ∨ c ∈ d.*1.
Proof.
  induction clients as [|x clients IH]; intros d; simpl; [set_solver|].
  rewrite IH, defaultdict_append_keys_elem. set_solver.
Qed.

Lemma group_receipt_NoDup rid (clients : list string) : ∀ d,
  NoDup d.*1 →
  NoDup (foldl (λ d client, defaultdict_append client rid d) d clients).*1.
Proof.
  induction clients as [|x clients IH]; intros d Hd; simpl; [done|].
  by apply IH, defaultdict_append_NoDup.
Qed.

Lemma group_statuses_get c statuses : ∀ d,
  defaultdict_get c (group_statuses d statuses)
  = defaultdict_get c d
    ++ (status_id <$> filter (λ status, c ∈ clients_to_notify status) statuses).
Proof.
  induction statuses as [|s statuses IH]; intros d; simpl.
  - by rewrite app_nil_r.
  - unfold group_statuses in *. simpl.
    rewrite IH, group_receipt_get by apply NoDup_elements.
    rewrite filter_cons, <-app_assoc. f_equal.
    destruct (decide (c ∈ clients_to_notify s)).
    + by rewrite decide_True by by apply elem_of_elements.
    + by rewrite decide_False by by rewrite elem_of_elements.
Qed.

Lemma group_statuses_keys c statuses : ∀ d,
  c ∈ (group_statuses d statuses).*1
  ↔ c ∈ d.*1 ∨ ∃ status, status ∈ statuses ∧ c ∈ clients_to_notify status.
Proof.
  induction statuses as [|s statuses IH]; intros d.
  - simpl. split; [by left|]. intros [?|(? & ?%elem_of_nil & _)]; done.
  - unfold group_statuses in *. simpl.
    rewrite IH, group_receipt_keys, elem_of_elements. split.
    + intros [[?|?]|(s' & ? & ?)]; [right; exists s|by left|right; exists s'];
        set_solver.
    + intros [?|(s' & [->|?]%elem_of_cons & ?)]; [by left; right|by left; left|].
      right. by exists s'.
Qed.

Lemma group_statuses_NoDup statuses : ∀ d,
  NoDup d.*1 → NoDup (group_statuses d statuses).*1.
Proof.
  induction statuses as [|s statuses IH]; intros d Hd; [done|].
  unfold group_statuses in *. simpl. by apply IH, group_receipt_NoDup.
Qed.
End timeout_grouping.

Lemma send_timeout_run item u app :
  ∃ app', send_timeout item u app = (app', inr tt)
    ∧ outbox (message_hub app')
      = outbox (message_hub app)
        ++ [(create_response_or_notification
               {[ "type" := FVal (PyStr "CMD-TIMEOUT"); "ids" := FList item.2 ]}
               None,
             Some item.1)].
Proof. destruct item. by eexists. Qed.

(** C3: when receipts time out together, exactly one CMD-TIMEOUT message
    goes to each client that some timed-out receipt wants notified, listing
    the ids of exactly those receipts; a client that no receipt names gets
    no message. *)
Theorem _on_command_execution_timeout_notifies statuses app :
  ∃ app' sent,
    _on_command_execution_timeout statuses app = (app', inr tt)
    ∧ outbox (message_hub app') = outbox (message_hub app) ++ sent
    ∧ (∀ client,
         (∃ status, status ∈ statuses ∧ client ∈ clients_to_notify status) →
         ∃ message,
           messages_to client sent = [message]
           ∧ correlation_id message = None
           ∧ body message !! "type" = Some (FVal (PyStr "CMD-TIMEOUT"))
           ∧ body message !! "ids"
             = Some (FList (status_id <$>
                              filter (λ status, client ∈ clients_to_notify status)
                                statuses)))
    ∧ (∀ client,
         (∀ status, status ∈ statuses → client ∉ clients_to_notify status) →
         messages_to client sent = [])
    ∧ (∀ item, item ∈ sent → is_Some item.2).
Proof.
  unfold _on_command_execution_timeout.
  change (receipt_ids_by_clients statuses) with (group_statuses [] statuses).
  set (d := group_statuses [] statuses).
  set (g := λ receipt_ids : list string,
         create_response_or_notification
           {[ "type" := FVal (PyStr "CMD-TIMEOUT"); "ids" := FList receipt_ids ]}
           None).
  destruct (send_loop_run d (λ item, (g item.2, Some item.1)) send_timeout
              send_timeout_run app) as (app' & Hrun & Hout).
  exists app', ((λ item, (g item.2, Some item.1)) <$> d).
  assert (NoDup d.*1) as Hnd by (apply group_statuses_NoDup; constructor).
  split; [done|]. split; [done|]. split; [|split].
  - intros client Hex. exists (g (defaultdict_get client d)).
    rewrite messages_to_grouped by done.
    rewrite decide_True by (apply group_statuses_keys; by right).
    split; [done|]. split; [done|]. subst g d. simpl.
    rewrite group_statuses_get. simpl. split; by simplify_map_eq.
  - intros client Hnone. rewrite messages_to_grouped by done.
    rewrite decide_False; [done|].
    intros [?%elem_of_nil|(s & Hs & Hc)]%group_statuses_keys; [done|].
    by apply (Hnone s).
  - by intros item (x & -> & _)%list_elem_of_fmap.
Qed.

(** ** Dispatching to drivers: one group *)

Lemma for_each_pure {X A} (l : list X) (f : X → A → A) : ∀ acc app,
  for_each l (λ x acc, ret (f x acc)) acc app
  = (app, inr (foldl (λ acc x, f x acc) acc l)).
Proof.
  induction l as [|x l IH]; intros acc app; [done|].
  rewrite for_each_cons. unfold bind, ret at 1. by rewrite IH.
Qed.

(** What one turn of the loop over the drivers does, by cases on the
    lookup and on the call. *)
Lemma dispatch_to_driver_run sender method_name parameters driver uavs
    response app :
  dispatch_to_driver sender method_name parameters (driver, uavs) response app
  = match getattr (drivers app driver) method_name with
    | inl ex =>
        if handled_by_lookup ex
        then (app, inr (add_failures uavs "Operation not supported" response))
        else (app, inl ex)
    | inr m =>
        let '(mgr, r) := m uavs parameters (command_execution_manager app) in
        let app1 :=
          record_driver_call driver uavs
            (set_command_execution_manager mgr app) in
        match r with
        | inr results => for_each results (record_result sender) response app1
        | inl ex =>
            if isinstance ex "NotImplementedError"
            then (app1,
                  inr (add_failures uavs "Operation not implemented" response))
            else if isinstance ex "NotSupportedError"
            then (app1,
                  inr (add_failures uavs "Operation not supported" response))
            else if isinstance ex "RuntimeError"
            then (log_exception ex app1,
                  inr (add_failures uavs
                         ("Unexpected error: " +:+ exn_str ex) response))
            else (app1, inl ex)
        end
    end.
Proof.
  unfold dispatch_to_driver, lookup_method, handled_by_lookup.
  unfold bind at 1. unfold try_except at 1.
  unfold bind at 1. unfold get_app at 1. unfold bind at 1. unfold lift at 1.
  destruct (getattr (drivers app driver) method_name) as [ex|m] eqn:Hget.
  - destruct (isinstance ex "RuntimeError" || isinstance ex "TypeError");
      [|done].
    unfold ret at 1. unfold execute_method, bind at 1, ret at 1.
    unfold update_response, add_failures. by rewrite for_each_pure.
  - unfold ret at 1. unfold execute_method.
    unfold bind at 1. unfold try_except at 1. unfold bind at 1.
    unfold call_method at 1.
    destruct (m uavs parameters (command_execution_manager app))
      as [mgr [ex|results]].
    + destruct (isinstance ex "NotImplementedError");
        [unfold ret at 1, update_response, add_failures;
         by rewrite for_each_pure|].
      destruct (isinstance ex "NotSupportedError");
        [unfold ret at 1, update_response, add_failures;
         by rewrite for_each_pure|].
      destruct (isinstance ex "RuntimeError"); [|done].
      unfold bind at 1, modify at 1, ret at 1, update_response, add_failures.
      by rewrite for_each_pure.
    + unfold ret at 1. done.
Qed.

(** ** Counting the outcomes of a ledger *)

Lemma outcomes_of_add_success i j r :
  outcomes_of i (add_success j r)
  = outcomes_of i r + (if decide (j = i) then 1 else 0).
Proof.
  unfold outcomes_of. simpl. rewrite filter_app, length_app, filter_cons.
  case_decide; simpl; lia.
Qed.

Lemma outcomes_of_add_failure i j v r :
  outcomes_of i (add_failure j v r)
  = outcomes_of i r
    + (if decide (j = i) then (if failure r !! i is Some _ then 0 else 1)
       else 0).
Proof.
  unfold outcomes_of. simpl. case_decide as Hji.
  - subst. rewrite lookup_insert_eq. destruct (failure r !! i); lia.
  - rewrite lookup_insert_ne by done. lia.
Qed.

Lemma outcomes_of_add_receipt i j rid r :
  outcomes_of i (add_receipt j rid r)
  = outcomes_of i r
    + (if decide (j = i) then (if receipt r !! i is Some _ then 0 else 1)
       else 0).
Proof.
  unfold outcomes_of. simpl. case_decide as Hji.
  - subst. rewrite lookup_insert_eq. destruct (receipt r !! i); lia.
  - rewrite lookup_insert_ne by done. lia.
Qed.

Lemma outcomes_of_zero i r :
  outcomes_of i r = 0 →
  i ∉ success r ∧ failure r !! i = None ∧ receipt r !! i = None.
Proof.
  unfold outcomes_of. intros H.
  destruct (failure r !! i); [lia|]. destruct (receipt r !! i); [lia|].
  split; [|done]. intros Hin.
  assert (i ∈ filter (λ j, j = i) (success r)) as Hf
    by by apply list_elem_of_filter.
  destruct (filter (λ j, j = i) (success r)); [by apply elem_of_nil in Hf|].
  simpl in H. lia.
Qed.

Lemma outcomes_of_pos_keys i r : 0 < outcomes_of i r ↔ i ∈ ledger_keys r.
Proof.
  unfold outcomes_of, ledger_keys.
  rewrite !elem_of_union, elem_of_list_to_set, !elem_of_dom. split.
  - intros H. destruct (failure r !! i) eqn:Ef; [left; right; by eexists|].
    destruct (receipt r !! i) eqn:Er; [right; by eexists|].
    left; left.
    destruct (filter (λ j, j = i) (success r)) as [|x l] eqn:E;
      [simpl in H; lia|].
    assert (x ∈ filter (λ j, j = i) (success r)) as Hx by (rewrite E; by left).
    apply list_elem_of_filter in Hx as [-> ?]. done.
  - intros [[Hin|[? ->]]|[? ->]]; [|lia..].
    assert (i ∈ filter (λ j, j = i) (success r)) as Hf
      by by apply list_elem_of_filter.
    destruct (filter (λ j, j = i) (success r));
      [by apply elem_of_nil in Hf|simpl; lia].
Qed.

Lemma outcomes_of_create b in_response_to i :
  outcomes_of i (create_response_or_notification b in_response_to) = 0.
Proof. unfold outcomes_of. simpl. by rewrite !lookup_empty. Qed.

(** ** Failing a whole group *)

Lemma add_failures_success uavs err r :
  success (add_failures uavs err r) = success r.
Proof.
  unfold add_failures. revert r. induction uavs as [|u uavs IH]; intros r;
    [done|]. simpl. by rewrite IH.
Qed.

Lemma add_failures_receipt uavs err r :
  receipt (add_failures uavs err r) = receipt r.
Proof.
  unfold add_failures. revert r. induction uavs as [|u uavs IH]; intros r;
    [done|]. simpl. by rewrite IH.
Qed.

Lemma add_failures_failure uavs err r i :
  failure (add_failures uavs err r) !! i
  = if decide (i ∈ uav_id <$> uavs) then Some (PyStr err)
    else failure r !! i.
Proof.
  unfold add_failures. revert r. induction uavs as [|u uavs IH]; intros r.
  - rewrite fmap_nil, decide_False by apply not_elem_of_nil. done.
  - rewrite fmap_cons. cbn [foldl]. rewrite IH. cbn [failure add_failure].
    destruct (decide (i ∈ uav_id <$> uavs)) as [Hin|Hin].
    + by rewrite decide_True by by right.
    + destruct (decide (i = uav_id u)) as [->|Hne].
      * rewrite decide_True by by left. by rewrite lookup_insert_eq.
      * rewrite lookup_insert_ne by done. rewrite decide_False; [done|].
        intros [?|?]%elem_of_cons; done.
Qed.

Lemma outcomes_of_add_failures uavs err r i :
  outcomes_of i (add_failures uavs err r)
  = outcomes_of i r
    + (if decide (i ∈ uav_id <$> uavs)
       then (if failure r !! i is Some _ then 0 else 1) else 0).
Proof.
  unfold outcomes_of.
  rewrite add_failures_success, add_failures_receipt, add_failures_failure.
  case_decide; [|lia]. destruct (failure r !! i); lia.
Qed.

(** ** Loop invariants *)

Section loop_invariants.
Context {X A : Type}.
Implicit Types (body : X → A → M A) (l : list X).

(** An invariant indexed by the items processed so far, for a loop whose
    body always returns. *)
Lemma for_each_inv (I : list X → A → FlockwaveServer → Prop) body l acc app :
  I [] acc app →
  (∀ done x rest acc app,
     l = done ++ x :: rest → I done acc app →
     ∃ app' acc', body x acc app = (app', inr acc') ∧ I (done ++ [x]) acc' app') →
  ∃ app' acc', for_each l body acc app = (app', inr acc') ∧ I l acc' app'.
Proof.
  intros Hinit Hstep.
  cut (∀ rest done acc app,
         l = done ++ rest → I done acc app →
         ∃ app' acc', for_each rest body acc app = (app', inr acc') ∧ I l acc' app').
  { intros Hgen. by apply (Hgen l []). }
  induction rest as [|x rest IH]; intros done acc0 app0 Hl HI.
  - exists app0, acc0. rewrite app_nil_r in Hl. by subst.
  - destruct (Hstep done x rest acc0 app0 Hl HI) as (app1 & acc1 & Hrun & HI1).
    destruct (IH (done ++ [x]) acc1 app1) as (app2 & acc2 & Hrun2 & HI2);
      [by rewrite <-app_assoc|done|].
    exists app2, acc2. split; [|done].
    rewrite for_each_cons. by erewrite bind_ok.
Qed.

(** The same for a loop whose body may raise: the invariant holds whenever
    the loop returns. *)
Lemma for_each_inv_ok (I : list X → A → FlockwaveServer → Prop) body l acc app :
  I [] acc app →
  (∀ done x rest acc app app' acc',
     l = done ++ x :: rest → I done acc app →
     body x acc app = (app', inr acc') → I (done ++ [x]) acc' app') →
  ∀ app' acc', for_each l body acc app = (app', inr acc') → I l acc' app'.
Proof.
  intros Hinit Hstep.
  cut (∀ rest done acc app app' acc',
         l = done ++ rest → I done acc app →
         for_each rest body acc app = (app', inr acc') → I l acc' app').
  { intros Hgen app' acc'. by apply (Hgen l []). }
  induction rest as [|x rest IH]; intros done acc0 app0 app' acc' Hl HI Hrun.
  - rewrite app_nil_r in Hl. rewrite for_each_nil in Hrun. by simplify_eq.
  - rewrite for_each_cons in Hrun. unfold bind in Hrun.
    destruct (body x acc0 app0) as [app1 [e|acc1]] eqn:Hb; [done|].
    eapply (IH (done ++ [x])); [by rewrite <-app_assoc| |done].
    by eapply Hstep.
Qed.

(** A property of the application state that every turn keeps, whether it
    returns or raises, holds in the state the loop leaves. *)
Lemma for_each_inv_state (I : FlockwaveServer → Prop) body l acc app :
  I app →
  (∀ x acc app, x ∈ l → I app → I (body x acc app).1) →
  I (for_each l body acc app).1.
Proof.
  intros Hinit Hstep. revert acc app Hinit.
  induction l as [|x l IH]; intros acc app Hinit; [done|].
  rewrite for_each_cons. unfold bind.
  pose proof (Hstep x acc app ltac:(by left) Hinit) as H1.
  destruct (body x acc app) as [app1 [e|acc1]]; [done|].
  apply IH; [|done]. intros y acc' app' Hy. apply Hstep. by right.
Qed.
End loop_invariants.

(** ** Recording the results of one driver *)

Lemma acknowledge_idemp client st :
  acknowledge client (acknowledge client st) = acknowledge client st.
Proof.
  unfold acknowledge, status_mark_as_clients_notified,
    status_add_client_to_notify. simpl. f_equal. set_solver.
Qed.

Lemma record_result_run sender uav result response app :
  record_result sender (uav, result) response app
  = match result with
    | OValue v =>
        (app,
         inr (if is_True v then add_success (uav_id uav) response
              else add_failure (uav_id uav) v response))
    | OReceipt receipt_id =>
        (set_command_execution_manager
           (manager_mark_as_clients_notified receipt_id
              (manager_add_client_to_notify receipt_id (client_id sender)
                 (command_execution_manager app))) app,
         inr (add_receipt (uav_id uav) receipt_id response))
    end.
Proof. destruct result as [v|rid]; simpl; [by destruct (is_True v)|done]. Qed.

Lemma acknowledged_entries receipt_id client mgr rid :
  entries (manager_mark_as_clients_notified receipt_id
             (manager_add_client_to_notify receipt_id client mgr)) !! rid
  = if decide (receipt_id = rid) then acknowledge client <$> entries mgr !! rid
    else entries mgr !! rid.
Proof.
  simpl. case_decide as Hr.
  - subst. rewrite !lookup_alter_eq. by destruct (entries mgr !! rid).
  - by rewrite !lookup_alter_ne.
Qed.

Lemma recorded_frame uav result j r r' :
  uav_id uav ≠ j →
  (uav_id uav ∈ success r → uav_id uav ∈ success r') →
  failure r' !! uav_id uav = failure r !! uav_id uav →
  receipt r' !! uav_id uav = receipt r !! uav_id uav →
  recorded uav result r → recorded uav result r'.
Proof.
  intros _ Hs Hf Hr. unfold recorded.
  destruct result as [v|rid]; [destruct (is_True v)|]; by rewrite ?Hf, ?Hr; auto.
Qed.

Lemma decide_elem_of_snoc {A B} `{EqDecision A} (x y : A) (l : list A)
    (a b : B) :
  (if decide (x ∈ l ++ [y]) then a else b)
  = if decide (x = y) then a else if decide (x ∈ l) then a else b.
Proof.
  destruct (decide (x = y)) as [->|Hne].
  - rewrite decide_True; [done|]. apply elem_of_app. right. by left.
  - destruct (decide (x ∈ l)) as [Hin|Hin].
    + rewrite decide_True; [done|]. apply elem_of_app. by left.
    + rewrite decide_False; [done|].
      by intros [?|?%list_elem_of_singleton]%elem_of_app.
Qed.

Lemma record_results_run sender results response app :
  NoDup (uav_id <$> results.*1) →
  ∃ app' response',
    for_each results (record_result sender) response app = (app', inr response')
    ∧ results_inv sender response app results response' app'.
Proof.
  intros Hnd. apply for_each_inv.
  { repeat split; try done.
    - by intros i ?%elem_of_nil.
    - by intros uav result ?%elem_of_nil. }
  intros done [uav result] rest r a ->
    (Hreg & Hdrv & Hlog & Hcalls & Hmgr & Hframe & Hcount & Hrec).
  rewrite !fmap_app, !fmap_cons in Hnd.
  apply NoDup_app in Hnd as (_ & Hfresh & _).
  assert (uav_id uav ∉ uav_id <$> done.*1) as Hnew.
  { intros Hin. apply (Hfresh _ Hin). by left. }
  clear Hfresh.
  destruct (Hframe _ Hnew) as (Ho & Hf & Hr & Hs).
  rewrite record_result_run.
  assert (∀ i, i ∉ uav_id <$> (done ++ [(uav, result)]).*1 →
               i ≠ uav_id uav ∧ i ∉ uav_id <$> done.*1) as Hsplit.
  { intros i Hi. rewrite !fmap_app, elem_of_app in Hi. split.
    - intros ->. apply Hi. right. by left.
    - intros ?. apply Hi. by left. }
  assert (∀ i, i ∈ uav_id <$> (done ++ [(uav, result)]).*1 →
               i = uav_id uav ∨ (i ≠ uav_id uav ∧ i ∈ uav_id <$> done.*1))
    as Hcase.
  { intros i Hi. rewrite !fmap_app, elem_of_app in Hi.
    destruct Hi as [Hi|Hi%list_elem_of_singleton]; [|by left].
    destruct (decide (i = uav_id uav)) as [->|?]; [by left|by right]. }
  destruct result as [v|receipt_id]; [destruct (is_True v) eqn:Hv|];
    eexists _, _; (split; [reflexivity|]);
    (split; [done|]); (split; [done|]); (split; [done|]); (split; [done|]).
  - (* success *)
    split.
    { intros rid. rewrite Hmgr, !fmap_app, !fmap_cons, !fmap_nil. cbn [snd].
      rewrite decide_elem_of_snoc.
      by rewrite (decide_False (P := OReceipt rid = OValue v)) by done. }
    split.
    { intros i [Hne Hi]%Hsplit. destruct (Hframe _ Hi) as (? & ? & ? & ?).
      rewrite outcomes_of_add_success, decide_False by done. simpl.
      rewrite elem_of_app, list_elem_of_singleton. naive_solver lia. }
    split.
    { intros i [->|[Hne Hi]]%Hcase H0.
      - rewrite outcomes_of_add_success, decide_True by done. lia.
      - rewrite outcomes_of_add_success, decide_False by done.
        rewrite Hcount by done. lia. }
    intros u o [Hin|Heq%list_elem_of_singleton]%elem_of_app.
    + eapply recorded_frame; [| | | |by apply Hrec]; simpl; try done.
      * intros Heq. apply Hnew. rewrite <-Heq.
        apply list_elem_of_fmap. exists u. split; [done|].
        apply list_elem_of_fmap. by exists (u, o).
      * intros ?. apply elem_of_app. by left.
    + simplify_eq. unfold recorded. rewrite Hv. simpl.
      apply elem_of_app. right. by left.
  - (* failure with the value as the reason *)
    split.
    { intros rid. rewrite Hmgr, !fmap_app, !fmap_cons, !fmap_nil. cbn [snd].
      rewrite decide_elem_of_snoc.
      by rewrite (decide_False (P := OReceipt rid = OValue v)) by done. }
    split.
    { intros i [Hne Hi]%Hsplit. destruct (Hframe _ Hi) as (? & ? & ? & ?).
      rewrite outcomes_of_add_failure, decide_False by done. simpl.
      rewrite lookup_insert_ne by done. naive_solver lia. }
    split.
    { intros i [->|[Hne Hi]]%Hcase H0.
      - rewrite outcomes_of_add_failure, decide_True by done.
        rewrite Ho, H0. apply outcomes_of_zero in H0 as (_ & H0 & _).
        by rewrite Hf, H0.
      - rewrite outcomes_of_add_failure, decide_False by done.
        rewrite Hcount by done. lia. }
    intros u o [Hin|Heq%list_elem_of_singleton]%elem_of_app.
    + assert (uav_id u ≠ uav_id uav) as Hne.
      { intros Heq. apply Hnew. rewrite <-Heq.
        apply list_elem_of_fmap. exists u. split; [done|].
        apply list_elem_of_fmap. by exists (u, o). }
      eapply recorded_frame; [| | | |by apply Hrec]; simpl; try done.
      by rewrite lookup_insert_ne.
    + simplify_eq. unfold recorded. rewrite Hv. simpl.
      by rewrite lookup_insert_eq.
  - (* receipt *)
    split.
    { intros rid. cbn [command_execution_manager set_command_execution_manager].
      rewrite acknowledged_entries, Hmgr, !fmap_app, !fmap_cons, !fmap_nil.
      cbn [snd]. rewrite decide_elem_of_snoc.
      destruct (decide (receipt_id = rid)) as [->|Hne].
      - rewrite (decide_True (P := OReceipt rid = _)) by done.
        case_decide; [|done].
        destruct (entries (command_execution_manager app) !! rid); [|done].
        simpl. by rewrite acknowledge_idemp.
      - rewrite (decide_False (P := OReceipt rid = _)); [done|].
        intros ?. simplify_eq. }
    split.
    { intros i [Hne Hi]%Hsplit. destruct (Hframe _ Hi) as (? & ? & ? & ?).
      rewrite outcomes_of_add_receipt, decide_False by done. simpl.
      rewrite lookup_insert_ne by done. naive_solver lia. }
    split.
    { intros i [->|[Hne Hi]]%Hcase H0.
      - rewrite outcomes_of_add_receipt, decide_True by done.
        rewrite Ho, H0. apply outcomes_of_zero in H0 as (_ & _ & H0).
        by rewrite Hr, H0.
      - rewrite outcomes_of_add_receipt, decide_False by done.
        rewrite Hcount by done. lia. }
    intros u o [Hin|Heq%list_elem_of_singleton]%elem_of_app.
    + assert (uav_id u ≠ uav_id uav) as Hne.
      { intros Heq. apply Hnew. rewrite <-Heq.
        apply list_elem_of_fmap. exists u. split; [done|].
        apply list_elem_of_fmap. by exists (u, o). }
      eapply recorded_frame; [| | | |by apply Hrec]; simpl; try done.
      by rewrite lookup_insert_ne.
    + simplify_eq. unfold recorded. simpl. by rewrite lookup_insert_eq.
Qed.



(** [dispatch_to_uavs] up to the loop over the drivers. *)
Lemma dispatch_to_uavs_run message sender app message_type uav_ids :
  body message !! "type" = Some message_type →
  body message !! "ids" = Some (FList uav_ids) →
  dispatch_to_uavs message sender app
  = match method_name_for message_type with
    | inl ex => (app, inl ex)
    | inr method_name =>
        for_each
          (_sort_uavs_by_drivers app uav_ids
             (create_response_or_notification ∅ (Some message))).1
          (dispatch_to_driver sender method_name
             (delete "ids" (delete "type" (body message))))
          (_sort_uavs_by_drivers app uav_ids
             (create_response_or_notification ∅ (Some message))).2
          app
    end.
Proof.
  intros Htype Hids. unfold dispatch_to_uavs, dict_pop. rewrite Htype.
  unfold bind at 1, lift at 1. rewrite lookup_delete_ne, Hids by done.
  unfold bind at 1, lift at 1. cbn [py_iter].
  unfold bind at 1, lift at 1. unfold bind at 1, get_app at 1.
  destruct (_sort_uavs_by_drivers app uav_ids _) as [groups response].
  unfold bind at 1, lift at 1.
  by destruct (method_name_for message_type).
Qed.

(** ** A driver that refuses, a driver that fails *)

Lemma add_failures_frame uavs err r i :
  i ∉ uav_id <$> uavs →
  failure (add_failures uavs err r) !! i = failure r !! i.
Proof. intros Hi. by rewrite add_failures_failure, decide_False. Qed.

Lemma add_failures_all uavs err r uav :
  uav ∈ uavs →
  failure (add_failures uavs err r) !! uav_id uav = Some (PyStr err).
Proof.
  intros Hin. rewrite add_failures_failure, decide_True; [done|].
  by apply list_elem_of_fmap_2.
Qed.

(** C5, as the code has it: when a driver refuses an operation, each
    vehicle of its group is recorded as a failure, with the reason
    "Operation not supported" when the lookup of the method fails or the
    call raises [NotSupportedError] and with the reason
    "Operation not implemented" when the call raises [NotImplementedError];
    nothing else in the ledger changes, and the loop goes on with the
    remaining groups. *)
Theorem dispatch_to_driver_refused sender method_name parameters driver uavs
    rest response app reason :
  refuses app driver method_name uavs parameters reason →
  ∃ app1 response1,
    dispatch_to_driver sender method_name parameters (driver, uavs) response app
    = (app1, inr response1)
    ∧ (∀ uav, uav ∈ uavs →
         failure response1 !! uav_id uav = Some (PyStr reason))
    ∧ (∀ i, i ∉ uav_id <$> uavs →
         failure response1 !! i = failure response !! i)
    ∧ success response1 = success response
    ∧ receipt response1 = receipt response
    ∧ log app1 = log app
    ∧ for_each ((driver, uavs) :: rest)
        (dispatch_to_driver sender method_name parameters) response app
      = for_each rest (dispatch_to_driver sender method_name parameters)
          response1 app1.
Proof.
  intros Href.
  assert (∃ app1,
            dispatch_to_driver sender method_name parameters (driver, uavs)
              response app
            = (app1, inr (add_failures uavs reason response))
            ∧ log app1 = log app) as (app1 & Hrun & Hlog).
  { rewrite dispatch_to_driver_run.
    destruct Href as [ex Hget Hh|m mgr ex Hget Hcall Hni Hns|m mgr ex Hget Hcall Hni];
      rewrite Hget.
    - rewrite Hh. by eexists.
    - rewrite Hcall, Hni, Hns. by eexists.
    - rewrite Hcall, Hni. by eexists. }
  exists app1, (add_failures uavs reason response).
  split; [done|]. split; [by intros; apply add_failures_all|].
  split; [by intros; apply add_failures_frame|].
  split; [apply add_failures_success|]. split; [apply add_failures_receipt|].
  split; [done|].
  rewrite for_each_cons. by erewrite bind_ok.
Qed.

(** C6, as the code has it: of the exceptions of a driver call other than
    [NotImplementedError] and [NotSupportedError], a [RuntimeError] is
    caught and logged; each vehicle of the group is recorded as a failure
    whose reason is "Unexpected error: " followed by the text of the
    exception, and the loop goes on with the remaining groups.  Any other
    exception is not caught: the turn of the loop raises it with nothing
    logged, the remaining groups are not visited, and a call of
    [dispatch_to_uavs] that reaches this turn, the groups before it having
    been handled, raises it. *)
Theorem dispatch_to_driver_unexpected_error sender method_name parameters
    driver uavs rest response app m mgr ex :
  getattr (drivers app driver) method_name = inr m →
  m uavs parameters (command_execution_manager app) = (mgr, inl ex) →
  isinstance ex "NotImplementedError" = false →
  isinstance ex "NotSupportedError" = false →
  (isinstance ex "RuntimeError" = true →
   ∃ app1 response1,
     dispatch_to_driver sender method_name parameters (driver, uavs) response
       app
     = (app1, inr response1)
     ∧ log app1 = log app ++ [ex]
     ∧ (∀ uav, uav ∈ uavs →
          failure response1 !! uav_id uav
          = Some (PyStr ("Unexpected error: " +:+ exn_str ex)))
     ∧ (∀ i, i ∉ uav_id <$> uavs →
          failure response1 !! i = failure response !! i)
     ∧ success response1 = success response
     ∧ receipt response1 = receipt response
     ∧ for_each ((driver, uavs) :: rest)
         (dispatch_to_driver sender method_name parameters) response app
       = for_each rest (dispatch_to_driver sender method_name parameters)
           response1 app1)
  ∧ (isinstance ex "RuntimeError" = false →
     ∃ app1,
       dispatch_to_driver sender method_name parameters (driver, uavs)
         response app
       = (app1, inl ex)
       ∧ log app1 = log app
       ∧ driver_calls app1 = driver_calls app ++ [(driver, uavs)]
       ∧ for_each ((driver, uavs) :: rest)
           (dispatch_to_driver sender method_name parameters) response app
         = (app1, inl ex)
       ∧ ∀ message message_type uav_ids app0 before,
           body message !! "type" = Some message_type →
           body message !! "ids" = Some (FList uav_ids) →
           method_name_for message_type = inr method_name →
           parameters = delete "ids" (delete "type" (body message)) →
           (_sort_uavs_by_drivers app0 uav_ids
              (create_response_or_notification ∅ (Some message))).1
           = before ++ (driver, uavs) :: rest →
           for_each before (dispatch_to_driver sender method_name parameters)
             (_sort_uavs_by_drivers app0 uav_ids
                (create_response_or_notification ∅ (Some message))).2 app0
           = (app, inr response) →
           dispatch_to_uavs message sender app0 = (app1, inl ex)).
Proof.
  intros Hget Hcall Hni Hns.
  pose proof (dispatch_to_driver_run sender method_name parameters driver uavs
                response app) as Hrun.
  rewrite Hget, Hcall, Hni, Hns in Hrun.
  split; intros Hrt; rewrite Hrt in Hrun.
  - eexists _, _. split; [exact Hrun|]. split; [done|].
    split; [by intros; apply add_failures_all|].
    split; [by intros; apply add_failures_frame|].
    split; [apply add_failures_success|]. split; [apply add_failures_receipt|].
    rewrite for_each_cons. by erewrite bind_ok.
  - assert (for_each ((driver, uavs) :: rest)
              (dispatch_to_driver sender method_name parameters) response app
            = (record_driver_call driver uavs
                 (set_command_execution_manager mgr app), inl ex)) as Hloop.
    { rewrite for_each_cons. by erewrite bind_raises. }
    eexists. split; [exact Hrun|]. split; [done|]. split; [done|].
    split; [exact Hloop|].
    intros message message_type uav_ids app0 before Htype Hids Hname Hpar
      Hgroups Hbefore.
    rewrite (dispatch_to_uavs_run message sender app0 message_type uav_ids)
      by done.
    rewrite Hname, Hgroups, <-Hpar, for_each_app.
    erewrite bind_ok by exact Hbefore. exact Hloop.
Qed.

Lemma dispatch_to_driver_refused_witness :
  refuses example_app "d2" (Some "send_command") [example_v3] ∅
    "Operation not supported"
  ∧ ∃ app1 response1,
      dispatch_to_driver example_client (Some "send_command") ∅
        ("d2", [example_v3]) example_response example_app
      = (app1, inr response1)
      ∧ (∀ uav, uav ∈ [example_v3] →
           failure response1 !! uav_id uav
           = Some (PyStr "Operation not supported"))
      ∧ (∀ i, i ∉ uav_id <$> [example_v3] →
           failure response1 !! i = failure example_response !! i)
      ∧ success response1 = success example_response
      ∧ receipt response1 = receipt example_response
      ∧ log app1 = log example_app
      ∧ for_each [("d2", [example_v3]); ("d1", [example_v1])]
          (dispatch_to_driver example_client (Some "send_command") ∅)
          example_response example_app
        = for_each [("d1", [example_v1])]
            (dispatch_to_driver example_client (Some "send_command") ∅)
            response1 app1.
Proof.
  assert (refuses example_app "d2" (Some "send_command") [example_v3] ∅
            "Operation not supported") as Href.
  { eapply refuses_not_supported; reflexivity. }
  split; [exact Href|].
  exact (dispatch_to_driver_refused example_client (Some "send_command") ∅
           "d2" [example_v3] [("d1", [example_v1])] example_response
           example_app "Operation not supported" Href).
Defined.

(** A driver whose call raises [NotImplementedError] has its vehicles
    recorded with the reason "Operation not implemented", not
    "Operation not supported". *)
Lemma dispatch_to_uavs_not_implemented_reason :
  (∃ mgr,
     getattr (drivers example_app "d3") (Some "send_command")
     = inr (example_raising (NotImplementedError "todo"))
     ∧ example_raising (NotImplementedError "todo") [example_v4] ∅
         (command_execution_manager example_app)
       = (mgr, inl (NotImplementedError "todo")))
  ∧ ∃ app' response,
      dispatch_to_uavs (example_request "CMD-REQ" ["v4"]) example_client
        example_app = (app', inr response)
      ∧ failure response !! "v4" = Some (PyStr "Operation not implemented").
Proof.
  split; [by eexists|].
  eexists _, _. split; [vm_compute; reflexivity|]. vm_compute. reflexivity.
Qed.

Lemma dispatch_to_driver_unexpected_error_witness :
  (∃ app1 response1,
     dispatch_to_driver example_client (Some "send_command") ∅
       ("d4", [example_v5]) example_response example_app
     = (app1, inr response1)
     ∧ log app1 = log example_app ++ [RuntimeError "link down"]
     ∧ (∀ uav, uav ∈ [example_v5] →
          failure response1 !! uav_id uav
          = Some (PyStr ("Unexpected error: "
                         +:+ exn_str (RuntimeError "link down"))))
     ∧ (∀ i, i ∉ uav_id <$> [example_v5] →
          failure response1 !! i = failure example_response !! i)
     ∧ success response1 = success example_response
     ∧ receipt response1 = receipt example_response
     ∧ for_each [("d4", [example_v5]); ("d1", [example_v1])]
         (dispatch_to_driver example_client (Some "send_command") ∅)
         example_response example_app
       = for_each [("d1", [example_v1])]
           (dispatch_to_driver example_client (Some "send_command") ∅)
           response1 app1)
  ∧ (∃ app1,
       dispatch_to_driver example_client (Some "send_command") ∅
         ("d5", [example_v6])
         (create_response_or_notification ∅
            (Some (example_request "CMD-REQ" ["v6"; "v1"]))) example_app
       = (app1, inl (ValueError "bad argument"))
       ∧ log app1 = log example_app
       ∧ driver_calls app1
         = driver_calls example_app ++ [("d5", [example_v6])]
       ∧ for_each [("d5", [example_v6]); ("d1", [example_v1])]
           (dispatch_to_driver example_client (Some "send_command") ∅)
           (create_response_or_notification ∅
              (Some (example_request "CMD-REQ" ["v6"; "v1"]))) example_app
         = (app1, inl (ValueError "bad argument"))
       ∧ dispatch_to_uavs (example_request "CMD-REQ" ["v6"; "v1"])
           example_client example_app
         = (app1, inl (ValueError "bad argument"))).
Proof.
  split.
  - apply (dispatch_to_driver_unexpected_error example_client
             (Some "send_command") ∅ "d4" [example_v5] [("d1", [example_v1])]
             example_response example_app
             (example_raising (RuntimeError "link down")) example_manager
             (RuntimeError "link down")); reflexivity.
  - destruct (proj2 (dispatch_to_driver_unexpected_error example_client
                       (Some "send_command") ∅ "d5" [example_v6]
                       [("d1", [example_v1])]
                       (create_response_or_notification ∅
                          (Some (example_request "CMD-REQ" ["v6"; "v1"])))
                       example_app
                       (example_raising (ValueError "bad argument"))
                       example_manager (ValueError "bad argument")
                       eq_refl eq_refl eq_refl eq_refl) eq_refl)
      as (app1 & Hturn & Hlog & Hcalls & Hloop & Hwhole).
    exists app1. split; [exact Hturn|]. split; [exact Hlog|].
    split; [exact Hcalls|]. split; [exact Hloop|].
    apply (Hwhole (example_request "CMD-REQ" ["v6"; "v1"])
             (FVal (PyStr "CMD-REQ")) ["v6"; "v1"] example_app []);
      reflexivity.
Defined.

(** An exception of a driver call that is not a [RuntimeError] is not
    caught: it leaves [dispatch_to_uavs]. *)
Lemma dispatch_to_uavs_propagates_ValueError :
  (∃ mgr,
     getattr (drivers example_app "d5") (Some "send_command")
     = inr (example_raising (ValueError "bad argument"))
     ∧ example_raising (ValueError "bad argument") [example_v6] ∅
         (command_execution_manager example_app)
       = (mgr, inl (ValueError "bad argument")))
  ∧ ∃ app',
      dispatch_to_uavs (example_request "CMD-REQ" ["v6"]) example_client
        example_app = (app', inl (ValueError "bad argument"))
      ∧ log app' = [].
Proof.
  split; [by eexists|].
  eexists. split; [vm_compute; reflexivity|]. vm_compute. reflexivity.
Qed.

(** ** Sorting the vehicles by drivers *)

Lemma resolved_cons app i uav_ids :
  resolved app (i :: uav_ids)
  = match uav_registry app !! i with
    | Some uav => uav :: resolved app uav_ids
    | None => resolved app uav_ids
    end.
Proof. reflexivity. Qed.

Lemma elem_of_resolved app uav_ids uav :
  uav ∈ resolved app uav_ids
  ↔ ∃ i, i ∈ uav_ids ∧ uav_registry app !! i = Some uav.
Proof. unfold resolved. apply list_elem_of_omap. Qed.

Lemma _find_uav_by_id_run app uav_id response :
  _find_uav_by_id app uav_id response
  = match uav_registry app !! uav_id with
    | Some uav => (Some uav, response)
    | None => (None, add_failure uav_id (PyStr "No such UAV") response)
    end.
Proof. reflexivity. Qed.

Lemma _sort_uavs_by_drivers_from_run app uav_ids : ∀ result response,
  ∃ result' response',
    _sort_uavs_by_drivers_from app uav_ids result response = (result', response')
    ∧ success response' = success response
    ∧ receipt response' = receipt response
    ∧ (∀ i, i ∈ uav_ids → uav_registry app !! i = None →
            failure response' !! i = Some (PyStr "No such UAV"))
    ∧ (∀ i, (i ∈ uav_ids → is_Some (uav_registry app !! i)) →
            failure response' !! i = failure response !! i)
    ∧ (∀ d, defaultdict_get d result'
            = defaultdict_get d result
              ++ filter (λ uav, uav_driver uav = d) (resolved app uav_ids))
    ∧ (∀ d, d ∈ result'.*1
            ↔ d ∈ result.*1
              ∨ ∃ uav, uav ∈ resolved app uav_ids ∧ uav_driver uav = d)
    ∧ (NoDup result.*1 → NoDup result'.*1).
Proof.
  induction uav_ids as [|x ids IH]; intros result response.
  - exists result, response. split; [done|]. split; [done|]. split; [done|].
    split; [by intros i ?%elem_of_nil|]. split; [done|].
    split; [by intros d; rewrite app_nil_r|].
    split; [|done]. intros d. split; [by left|].
    by intros [?|(? & ?%elem_of_nil & _)].
  - cbn [_sort_uavs_by_drivers_from]. rewrite _find_uav_by_id_run.
    destruct (uav_registry app !! x) as [uav|] eqn:Hx.
    + destruct (IH (defaultdict_append (uav_driver uav) uav result) response)
        as (result' & response' & Hrun & Hs & Hr & Hf1 & Hf2 & Hget & Hkeys & Hnd).
      exists result', response'. split; [done|]. split; [done|].
      split; [done|]. split.
      { intros i [->|Hi]%elem_of_cons Hnone; [congruence|by apply Hf1]. }
      split.
      { intros i Hi. apply Hf2. intros ?. apply Hi. by right. }
      split.
      { intros d. rewrite Hget, defaultdict_get_append, resolved_cons, Hx.
        rewrite filter_cons. case_decide; [|done]. by rewrite <-app_assoc. }
      split.
      { intros d. rewrite Hkeys, defaultdict_append_keys_elem, resolved_cons, Hx.
        split.
        - intros [[->|?]|(u & ? & ?)]; [right; exists uav|by left|right; exists u];
            (split; [|done]); [by left|by right].
        - intros [?|(u & [->|?]%elem_of_cons & ?)];
            [by left; right|by left; left|right; by exists u]. }
      intros ?. by apply Hnd, defaultdict_append_NoDup.
    + destruct (IH result (add_failure x (PyStr "No such UAV") response))
        as (result' & response' & Hrun & Hs & Hr & Hf1 & Hf2 & Hget & Hkeys & Hnd).
      exists result', response'. split; [done|]. split; [done|].
      split; [done|]. split.
      { intros i Hi Hnone. destruct (decide (i ∈ ids)) as [Hin|Hin].
        - by apply Hf1.
        - apply elem_of_cons in Hi as [->|?]; [|done].
          rewrite Hf2 by done. simpl. by rewrite lookup_insert_eq. }
      split.
      { intros i Hi. rewrite Hf2.
        - simpl. rewrite lookup_insert_ne; [done|]. intros ->.
          destruct Hi as [? Hi]; [by left|congruence].
        - intros ?. apply Hi. by right. }
      split; [by intros d; rewrite Hget, resolved_cons, Hx|].
      split; [by intros d; rewrite Hkeys, resolved_cons, Hx|done].
Qed.

(** The groups that [_sort_uavs_by_drivers] builds. *)
Lemma _sort_uavs_by_drivers_run app uav_ids response :
  ∃ groups response',
    _sort_uavs_by_drivers app uav_ids response = (groups, response')
    ∧ success response' = success response
    ∧ receipt response' = receipt response
    ∧ (∀ i, i ∈ uav_ids → uav_registry app !! i = None →
            failure response' !! i = Some (PyStr "No such UAV"))
    ∧ (∀ i, (i ∈ uav_ids → is_Some (uav_registry app !! i)) →
            failure response' !! i = failure response !! i)
    ∧ NoDup groups.*1
    ∧ (∀ d uavs, (d, uavs) ∈ groups →
         uavs = filter (λ uav, uav_driver uav = d) (resolved app uav_ids)
         ∧ ∃ uav, uav ∈ uavs)
    ∧ (∀ uav, uav ∈ resolved app uav_ids →
         ∃ uavs, (uav_driver uav, uavs) ∈ groups ∧ uav ∈ uavs).
Proof.
  unfold _sort_uavs_by_drivers.
  destruct (_sort_uavs_by_drivers_from_run app uav_ids [] response)
    as (groups & response' & Hrun & Hs & Hr & Hf1 & Hf2 & Hget & Hkeys & Hnd).
  exists groups, response'. split; [done|]. split; [done|]. split; [done|].
  split; [done|]. split; [done|].
  assert (NoDup groups.*1) as Hndg by (apply Hnd; constructor).
  split; [done|].
  assert (∀ d uavs, (d, uavs) ∈ groups →
            uavs = filter (λ uav, uav_driver uav = d) (resolved app uav_ids))
    as Hgroup.
  { intros d uavs Hin. rewrite <-(defaultdict_get_elem d uavs groups) by done.
    by rewrite Hget. }
  split.
  - intros d uavs Hin. split; [by apply Hgroup|].
    assert (d ∈ groups.*1) as Hd.
    { apply list_elem_of_fmap. by exists (d, uavs). }
    apply Hkeys in Hd as [?%elem_of_nil|(uav & Hu & Hdrv)]; [done|].
    exists uav. rewrite (Hgroup _ _ Hin). by apply list_elem_of_filter.
  - intros uav Hu.
    assert (uav_driver uav ∈ groups.*1) as Hd.
    { apply Hkeys. right. by exists uav. }
    apply list_elem_of_fmap in Hd as ([d uavs] & Hd & Hin). simpl in Hd. subst d.
    exists uavs. split; [done|]. rewrite (Hgroup _ _ Hin).
    by apply list_elem_of_filter.
Qed.

(** ** The loop over the drivers *)

Lemma elem_of_group_ids groups i :
  i ∈ group_ids groups
  ↔ ∃ d uavs uav, (d, uavs) ∈ groups ∧ uav ∈ uavs ∧ uav_id uav = i.
Proof.
  unfold group_ids. rewrite list_elem_of_fmap. split.
  - intros (uav & -> & (uavs & Hu & ([d uavs'] & -> & Hg)%list_elem_of_fmap)
                       %list_elem_of_join).
    by exists d, uavs', uav.
  - intros (d & uavs & uav & Hg & Hu & <-). exists uav. split; [done|].
    apply list_elem_of_join. exists uavs. split; [done|].
    apply list_elem_of_fmap. by exists (d, uavs).
Qed.

Lemma group_ids_snoc groups d uavs i :
  i ∈ group_ids (groups ++ [(d, uavs)])
  ↔ i ∈ group_ids groups ∨ i ∈ uav_id <$> uavs.
Proof.
  rewrite !elem_of_group_ids, list_elem_of_fmap. split.
  - intros (d' & uavs' & uav & [Hg|Hg%list_elem_of_singleton]%elem_of_app
              & Hu & <-).
    + left. by exists d', uavs', uav.
    + simplify_eq. right. by exists uav.
  - intros [(d' & uavs' & uav & Hg & Hu & <-)|(uav & -> & Hu)].
    + exists d', uavs', uav. split; [|done]. apply elem_of_app. by left.
    + exists d, uavs, uav. split; [|done]. apply elem_of_app. right. by left.
Qed.

Lemma ledger_step_add_failures uavs err r :
  ledger_step (uav_id <$> uavs) r (add_failures uavs err r).
Proof.
  split.
  - intros i Hi.
    rewrite outcomes_of_add_failures, add_failures_failure,
      add_failures_receipt, add_failures_success.
    rewrite !decide_False by done. split; [lia|done].
  - intros i Hi H0. rewrite outcomes_of_add_failures, decide_True by done.
    rewrite H0. apply outcomes_of_zero in H0 as (_ & -> & _). done.
Qed.

Lemma ledger_step_trans ids1 ids2 r0 r1 r2 :
  (∀ i, i ∈ ids2 → i ∉ ids1) →
  ledger_step ids1 r0 r1 → ledger_step ids2 r1 r2 →
  ∀ ids, (∀ i, i ∈ ids ↔ i ∈ ids1 ∨ i ∈ ids2) → ledger_step ids r0 r2.
Proof.
  intros Hdisj [Hf1 Hc1] [Hf2 Hc2] ids Hids. split.
  - intros i Hi.
    assert (i ∉ ids1) as H1 by (intros ?; apply Hi, Hids; by left).
    assert (i ∉ ids2) as H2 by (intros ?; apply Hi, Hids; by right).
    destruct (Hf2 _ H2) as (-> & -> & -> & Hs2).
    destruct (Hf1 _ H1) as (? & ? & ? & Hs1).
    split; [done|]. split; [done|]. split; [done|]. by rewrite Hs2.
  - intros i [H1|H2]%Hids H0.
    + assert (i ∉ ids2) as H2 by (intros ?; by eapply Hdisj).
      destruct (Hf2 _ H2) as (-> & _). by apply Hc1.
    + pose proof (Hdisj _ H2) as H1. destruct (Hf1 _ H1) as (Ho & _).
      apply Hc2; [done|]. by rewrite Ho.
Qed.

(** One turn of the loop for a driver that answers: it returns, leaves the
    registry and the drivers as they were, and gives each vehicle of the
    group one outcome. *)
Lemma dispatch_to_driver_answered sender method_name parameters d uavs r app :
  (match getattr (drivers app d) method_name with
   | inl ex => handled_by_lookup ex = true
   | inr m =>
       match m uavs parameters (command_execution_manager app) with
       | (_, inr results) => one_outcome_per_vehicle uavs results
       | (_, inl ex) => handled_by_call ex = true
       end
   end) →
  (∀ u1 u2, u1 ∈ uavs → u2 ∈ uavs → uav_id u1 = uav_id u2 → u1 = u2) →
  ∃ app' r',
    dispatch_to_driver sender method_name parameters (d, uavs) r app
    = (app', inr r')
    ∧ uav_registry app' = uav_registry app
    ∧ drivers app' = drivers app
    ∧ ledger_step (uav_id <$> uavs) r r'.
Proof.
  intros Hans Hinj. rewrite dispatch_to_driver_run.
  destruct (getattr (drivers app d) method_name) as [ex|m].
  { rewrite Hans. eexists _, _. split; [done|]. split; [done|].
    split; [done|]. apply ledger_step_add_failures. }
  destruct (m uavs parameters (command_execution_manager app))
    as [mgr [ex|results]].
  - unfold handled_by_call in Hans.
    destruct (isinstance ex "NotImplementedError");
      [eexists _, _; split; [done|]; split; [done|]; split; [done|];
       apply ledger_step_add_failures|].
    destruct (isinstance ex "NotSupportedError");
      [eexists _, _; split; [done|]; split; [done|]; split; [done|];
       apply ledger_step_add_failures|].
    destruct (isinstance ex "RuntimeError"); [|done].
    eexists _, _; split; [done|]; split; [done|]; split; [done|].
    apply ledger_step_add_failures.
  - destruct Hans as [Hnd Hkeys].
    assert (NoDup (uav_id <$> results.*1)) as Hndi.
    { apply NoDup_fmap_2_strong; [|done].
      intros u1 u2 H1%Hkeys H2%Hkeys. by apply Hinj. }
    destruct (record_results_run sender results r
                (record_driver_call d uavs
                   (set_command_execution_manager mgr app)) Hndi)
      as (app' & r' & Hrun & Hreg & Hdrv & _ & _ & _ & Hframe & Hcount & _).
    exists app', r'. split; [done|]. split; [done|]. split; [done|].
    assert (∀ i, i ∈ uav_id <$> results.*1 ↔ i ∈ uav_id <$> uavs) as Hsame.
    { intros i. rewrite !list_elem_of_fmap. by setoid_rewrite Hkeys. }
    split.
    + intros i Hi. apply Hframe. by rewrite Hsame.
    + intros i Hi. apply Hcount. by rewrite Hsame.
Qed.

Lemma dispatch_groups_run sender method_name parameters groups r0 app0 :
  drivers_answer app0 method_name parameters →
  NoDup groups.*1 →
  (∀ d uavs, (d, uavs) ∈ groups →
     (∃ uav, uav ∈ uavs)
     ∧ ∀ uav, uav ∈ uavs →
         uav_driver uav = d ∧ uav_registry app0 !! uav_id uav = Some uav) →
  ∃ app' r',
    for_each groups (dispatch_to_driver sender method_name parameters) r0 app0
    = (app', inr r')
    ∧ uav_registry app' = uav_registry app0
    ∧ drivers app' = drivers app0
    ∧ ledger_step (group_ids groups) r0 r'.
Proof.
  intros Hans Hnd Hmem.
  apply (for_each_inv
           (λ done r a,
              uav_registry a = uav_registry app0
              ∧ drivers a = drivers app0
              ∧ ledger_step (group_ids done) r0 r)).
  { split; [done|]. split; [done|]. split; [done|].
    by intros i ?%elem_of_nil. }
  intros done [d uavs] rest r a Hl (Hreg & Hdrv & Hstep).
  destruct (Hmem d uavs) as [[u Hu] Hin].
  { rewrite Hl. apply elem_of_app. right. by left. }
  destruct (dispatch_to_driver_answered sender method_name parameters d uavs r a)
    as (a2 & r2 & Hrun & Hreg2 & Hdrv2 & Hstep2).
  { destruct (Hin u Hu) as [Hd Hr].
    specialize (Hans (uav_id u) u uavs (command_execution_manager a) Hr).
    by rewrite Hd, <-Hdrv in Hans. }
  { intros u1 u2 [_ H1]%Hin [_ H2]%Hin Heq. rewrite Heq in H1. congruence. }
  exists a2, r2. split; [done|]. split; [congruence|]. split; [congruence|].
  eapply ledger_step_trans; [|exact Hstep|exact Hstep2|apply group_ids_snoc].
  intros i (u1 & -> & Hu1)%list_elem_of_fmap
    (d' & uavs' & u2 & Hg & Hu2 & Heq)%elem_of_group_ids.
  destruct (Hin u1 Hu1) as [Hd1 Hr1].
  destruct (Hmem d' uavs') as [_ Hin'].
  { rewrite Hl. apply elem_of_app. by left. }
  destruct (Hin' u2 Hu2) as [Hd2 Hr2].
  rewrite Heq in Hr2. assert (u1 = u2) as -> by congruence.
  assert (d' = d) as -> by congruence.
  rewrite Hl, fmap_app, fmap_cons in Hnd.
  apply NoDup_app in Hnd as (_ & Hfresh & _).
  apply (Hfresh d); [|by left].
  apply list_elem_of_fmap. by exists (d, uavs').
Qed.


(** C1: when the registry files vehicles under their ids and every driver
    concerned answers with one outcome per vehicle passed (or fails in a
    way the dispatcher handles), [dispatch_to_uavs] returns a response
    whose ledger has exactly one outcome for each requested id and none for
    any other id; the success, failure and receipt keys together are the
    requested ids. *)
Theorem dispatch_to_uavs_ledger message sender app message_type method_name
    uav_ids :
  body message !! "type" = Some message_type →
  body message !! "ids" = Some (FList uav_ids) →
  method_name_for message_type = inr method_name →
  registry_consistent app →
  drivers_answer app method_name
    (delete "ids" (delete "type" (body message))) →
  ∃ app' response,
    dispatch_to_uavs message sender app = (app', inr response)
    ∧ (∀ i, i ∈ uav_ids → outcomes_of i response = 1)
    ∧ (∀ i, i ∉ uav_ids → outcomes_of i response = 0)
    ∧ ledger_keys response = list_to_set uav_ids.
Proof.
  intros Htype Hids Hname Hcons Hans.
  rewrite (dispatch_to_uavs_run _ _ _ _ _ Htype Hids), Hname.
  set (r0 := create_response_or_notification ∅ (Some message)).
  destruct (_sort_uavs_by_drivers_run app uav_ids r0)
    as (groups & r1 & -> & Hs & Hr & Hf1 & Hf2 & Hnd & Hgroup & Hres).
  cbn [fst snd].
  assert (∀ d uavs uav, (d, uavs) ∈ groups → uav ∈ uavs →
            uav_driver uav = d ∧ uav_id uav ∈ uav_ids
            ∧ uav_registry app !! uav_id uav = Some uav) as Hmem.
  { intros d uavs uav Hg Hu. destruct (Hgroup _ _ Hg) as [-> _].
    apply list_elem_of_filter in Hu as [Hd (i & Hi & Hreg)%elem_of_resolved].
    rewrite (Hcons _ _ Hreg). done. }
  destruct (dispatch_groups_run sender method_name
              (delete "ids" (delete "type" (body message))) groups r1 app)
    as (app' & r' & Hrun & _ & _ & Hframe & Hcount); [done|done| |].
  { intros d uavs Hg. split; [by apply (Hgroup _ _ Hg)|].
    intros uav Hu. destruct (Hmem _ _ _ Hg Hu) as (? & _ & ?). done. }
  exists app', r'. split; [done|].
  assert (∀ i, outcomes_of i r1
               = if uav_registry app !! i is Some _ then 0
                 else if decide (i ∈ uav_ids) then 1 else 0) as Hr1.
  { intros i. unfold outcomes_of. rewrite Hs, Hr. subst r0. simpl.
    rewrite lookup_empty.
    destruct (uav_registry app !! i) as [uav|] eqn:Hreg.
    - rewrite Hf2 by (by intros _; eexists). simpl. by rewrite lookup_empty.
    - destruct (decide (i ∈ uav_ids)) as [Hi|Hi].
      + by rewrite Hf1.
      + rewrite Hf2 by done. simpl. by rewrite lookup_empty. }
  assert (∀ i, i ∈ group_ids groups
               ↔ i ∈ uav_ids ∧ is_Some (uav_registry app !! i)) as Hgids.
  { intros i. rewrite elem_of_group_ids. split.
    - intros (d & uavs & uav & Hg & Hu & <-).
      destruct (Hmem _ _ _ Hg Hu) as (_ & ? & ?). split; [done|by eexists].
    - intros [Hi [uav Hreg]].
      destruct (Hres uav) as (uavs & Hg & Hu).
      { apply elem_of_resolved. by exists i. }
      exists (uav_driver uav), uavs, uav. split; [done|]. split; [done|].
      by apply Hcons. }
  assert (∀ i, outcomes_of i r' = if decide (i ∈ uav_ids) then 1 else 0) as Hall.
  { intros i. specialize (Hr1 i).
    destruct (decide (i ∈ group_ids groups)) as [Hg|Hg].
    - pose proof Hg as [Hi [uav Hreg]]%Hgids. rewrite Hreg in Hr1.
      rewrite decide_True by done. by apply Hcount.
    - destruct (Hframe _ Hg) as (-> & _). rewrite Hr1.
      destruct (uav_registry app !! i) as [uav|] eqn:Hreg; [|done].
      rewrite decide_False; [done|]. intros Hi. apply Hg, Hgids.
      split; [done|by eexists]. }
  split; [by intros i Hi; rewrite Hall, decide_True|].
  split; [by intros i Hi; rewrite Hall, decide_False|].
  apply set_eq. intros i. rewrite <-outcomes_of_pos_keys, Hall, elem_of_list_to_set.
  case_decide; split; (done || lia).
Qed.

Lemma example_fleet_consistent : registry_consistent example_fleet_app.
Proof.
  intros i uav Hreg.
  apply (map_Forall_lookup_1 (λ i uav, uav_id uav = i)
           (uav_registry example_fleet_app) i uav); [|done].
  apply (bool_decide_unpack _). vm_compute. reflexivity.
Qed.

Lemma fst_fmap_pair {A B} (g : A → B) (l : list A) :
  ((λ x, (x, g x)) <$> l).*1 = l.
Proof. induction l as [|x l IH]; [done|]. csimpl. by rewrite IH. Qed.

Lemma example_send_command_answers uavs parameters mgr :
  match example_send_command uavs parameters mgr with
  | (_, inr results) => one_outcome_per_vehicle uavs results
  | (_, inl ex) => handled_by_call ex = true
  end.
Proof.
  unfold example_send_command, one_outcome_per_vehicle.
  rewrite fst_fmap_pair. split; [apply NoDup_remove_dups|].
  intros uav. apply elem_of_remove_dups.
Qed.

Lemma example_fleet_answers parameters :
  drivers_answer example_fleet_app (Some "send_command") parameters.
Proof.
  intros i uav uavs mgr Hreg.
  assert (uav_driver uav ∈ ["d1"; "d2"; "d3"; "d4"]) as Hd.
  { apply (map_Forall_lookup_1
             (λ _ uav, uav_driver uav ∈ ["d1"; "d2"; "d3"; "d4"])
             (uav_registry example_fleet_app) i uav); [|done].
    apply (bool_decide_unpack _). vm_compute. reflexivity. }
  repeat (apply elem_of_cons in Hd as [Hd|Hd]);
    try (by apply elem_of_nil in Hd); rewrite Hd;
    first [exact (example_send_command_answers uavs parameters mgr)
          |reflexivity].
Qed.

Lemma dispatch_to_uavs_ledger_witness :
  ∃ app' response,
    dispatch_to_uavs (example_request "CMD-REQ" ["v1"; "v2"; "v3"; "zz"; "v1"])
      example_client example_fleet_app = (app', inr response)
    ∧ (∀ i, i ∈ ["v1"; "v2"; "v3"; "zz"; "v1"] → outcomes_of i response = 1)
    ∧ (∀ i, i ∉ ["v1"; "v2"; "v3"; "zz"; "v1"] → outcomes_of i response = 0)
    ∧ ledger_keys response = list_to_set ["v1"; "v2"; "v3"; "zz"; "v1"].
Proof.
  apply (dispatch_to_uavs_ledger
           (example_request "CMD-REQ" ["v1"; "v2"; "v3"; "zz"; "v1"])
           example_client example_fleet_app (FVal (PyStr "CMD-REQ"))
           (Some "send_command") ["v1"; "v2"; "v3"; "zz"; "v1"]).
  - reflexivity.
  - reflexivity.
  - reflexivity.
  - exact example_fleet_consistent.
  - exact (example_fleet_answers _).
Defined.

(** ** Which vehicles reach a driver *)

Lemma record_results_driver_calls sender results r app :
  driver_calls (for_each results (record_result sender) r app).1
  = driver_calls app.
Proof.
  apply (for_each_inv_state (λ a, driver_calls a = driver_calls app)); [done|].
  intros [uav result] acc a _ Ha. rewrite record_result_run.
  by destruct result.
Qed.

(** A turn of the loop over the drivers invokes at most the driver of its
    group, with the vehicles of its group. *)
Lemma dispatch_to_driver_calls sender method_name parameters d uavs r app :
  driver_calls
    (dispatch_to_driver sender method_name parameters (d, uavs) r app).1
  = driver_calls app
  ∨ driver_calls
      (dispatch_to_driver sender method_name parameters (d, uavs) r app).1
    = driver_calls app ++ [(d, uavs)].
Proof.
  rewrite dispatch_to_driver_run.
  destruct (getattr (drivers app d) method_name) as [ex|m].
  { left. by destruct (handled_by_lookup ex). }
  right.
  destruct (m uavs parameters (command_execution_manager app))
    as [mgr [ex|results]].
  - destruct (isinstance ex "NotImplementedError"); [done|].
    destruct (isinstance ex "NotSupportedError"); [done|].
    by destruct (isinstance ex "RuntimeError").
  - by rewrite record_results_driver_calls.
Qed.

Lemma dispatch_groups_calls sender method_name parameters groups r app :
  ∃ calls,
    driver_calls
      (for_each groups (dispatch_to_driver sender method_name parameters)
         r app).1
    = driver_calls app ++ calls
    ∧ ∀ call, call ∈ calls → call ∈ groups.
Proof.
  apply (for_each_inv_state
           (λ a, ∃ calls, driver_calls a = driver_calls app ++ calls
                          ∧ ∀ call, call ∈ calls → call ∈ groups)).
  { exists []. split; [by rewrite app_nil_r|]. by intros call ?%elem_of_nil. }
  intros [d uavs] acc a Hin (calls & Hcalls & Hsub).
  destruct (dispatch_to_driver_calls sender method_name parameters d uavs acc a)
    as [Hc|Hc]; rewrite Hc.
  - by exists calls.
  - exists (calls ++ [(d, uavs)]). split; [by rewrite Hcalls, app_assoc|].
    intros call [?|Hcall%list_elem_of_singleton]%elem_of_app;
      [by apply Hsub|by subst].
Qed.

(** C7: each requested id that the registry does not know is recorded as a
    failure with the reason "No such UAV" while the vehicles are sorted by
    drivers; no vehicle with that id is in any driver group or is passed to
    any driver; the ids that do resolve all reach the group of their
    driver; and when the drivers answer, the failure is in the response
    that [dispatch_to_uavs] returns. *)
Theorem dispatch_to_uavs_unresolved message sender app message_type uav_ids :
  body message !! "type" = Some message_type →
  body message !! "ids" = Some (FList uav_ids) →
  registry_consistent app →
  ∃ groups response1,
    _sort_uavs_by_drivers app uav_ids
      (create_response_or_notification ∅ (Some message))
    = (groups, response1)
    ∧ (∀ i, i ∈ uav_ids → uav_registry app !! i = None →
         failure response1 !! i = Some (PyStr "No such UAV")
         ∧ ∀ d uavs uav, (d, uavs) ∈ groups → uav ∈ uavs → uav_id uav ≠ i)
    ∧ (∀ i uav, i ∈ uav_ids → uav_registry app !! i = Some uav →
         failure response1 !! i = None
         ∧ ∃ uavs, (uav_driver uav, uavs) ∈ groups ∧ uav ∈ uavs)
    ∧ (∃ calls,
         driver_calls (dispatch_to_uavs message sender app).1
         = driver_calls app ++ calls
         ∧ ∀ call, call ∈ calls → call ∈ groups)
    ∧ (∀ method_name,
         method_name_for message_type = inr method_name →
         drivers_answer app method_name
           (delete "ids" (delete "type" (body message))) →
         ∃ app' response,
           dispatch_to_uavs message sender app = (app', inr response)
           ∧ ∀ i, i ∈ uav_ids → uav_registry app !! i = None →
               failure response !! i = Some (PyStr "No such UAV")
               ∧ i ∉ success response
               ∧ receipt response !! i = None).
Proof.
  intros Htype Hids Hcons.
  rewrite (dispatch_to_uavs_run _ _ _ _ _ Htype Hids).
  set (r0 := create_response_or_notification ∅ (Some message)).
  destruct (_sort_uavs_by_drivers_run app uav_ids r0)
    as (groups & r1 & -> & Hs & Hr & Hf1 & Hf2 & Hnd & Hgroup & Hres).
  cbn [fst snd]. exists groups, r1. split; [done|].
  assert (∀ d uavs uav, (d, uavs) ∈ groups → uav ∈ uavs →
            uav_driver uav = d ∧ uav_id uav ∈ uav_ids
            ∧ uav_registry app !! uav_id uav = Some uav) as Hmem.
  { intros d uavs uav Hg Hu. destruct (Hgroup _ _ Hg) as [-> _].
    apply list_elem_of_filter in Hu as [Hd (i & Hi & Hreg)%elem_of_resolved].
    rewrite (Hcons _ _ Hreg). done. }
  split.
  { intros i Hi Hnone. split; [by apply Hf1|].
    intros d uavs uav Hg Hu <-.
    destruct (Hmem _ _ _ Hg Hu) as (_ & _ & ?). congruence. }
  split.
  { intros i uav Hi Hreg. split.
    - rewrite Hf2 by (by intros _; eexists). subst r0. simpl.
      by rewrite lookup_empty.
    - apply Hres, elem_of_resolved. by exists i. }
  split.
  { destruct (method_name_for message_type) as [ex|method_name].
    - exists []. split; [by rewrite app_nil_r|]. by intros call ?%elem_of_nil.
    - apply dispatch_groups_calls. }
  intros method_name Hname Hans. rewrite Hname.
  destruct (dispatch_groups_run sender method_name
              (delete "ids" (delete "type" (body message))) groups r1 app)
    as (app' & r' & Hrun & _ & _ & Hframe & _); [done|done| |].
  { intros d uavs Hg. split; [by apply (Hgroup _ _ Hg)|].
    intros uav Hu. destruct (Hmem _ _ _ Hg Hu) as (? & _ & ?). done. }
  exists app', r'. split; [done|].
  intros i Hi Hnone.
  destruct (Hframe i) as (_ & -> & -> & Hsucc).
  { intros (d & uavs & uav & Hg & Hu & <-)%elem_of_group_ids.
    destruct (Hmem _ _ _ Hg Hu) as (_ & _ & ?). congruence. }
  split; [by apply Hf1|]. rewrite Hsucc, Hs, Hr. subst r0. simpl.
  split; [apply not_elem_of_nil|apply lookup_empty].
Qed.

Lemma dispatch_to_uavs_unresolved_witness :
  ∃ groups response1,
    _sort_uavs_by_drivers example_fleet_app ["v1"; "zz"; "v3"]
      (create_response_or_notification ∅
         (Some (example_request "CMD-REQ" ["v1"; "zz"; "v3"])))
    = (groups, response1)
    ∧ (∀ i, i ∈ ["v1"; "zz"; "v3"] →
         uav_registry example_fleet_app !! i = None →
         failure response1 !! i = Some (PyStr "No such UAV")
         ∧ ∀ d uavs uav, (d, uavs) ∈ groups → uav ∈ uavs → uav_id uav ≠ i)
    ∧ (∀ i uav, i ∈ ["v1"; "zz"; "v3"] →
         uav_registry example_fleet_app !! i = Some uav →
         failure response1 !! i = None
         ∧ ∃ uavs, (uav_driver uav, uavs) ∈ groups ∧ uav ∈ uavs)
    ∧ (∃ calls,
         driver_calls
           (dispatch_to_uavs (example_request "CMD-REQ" ["v1"; "zz"; "v3"])
              example_client example_fleet_app).1
         = driver_calls example_fleet_app ++ calls
         ∧ ∀ call, call ∈ calls → call ∈ groups)
    ∧ (∀ method_name,
         method_name_for (FVal (PyStr "CMD-REQ")) = inr method_name →
         drivers_answer example_fleet_app method_name
           (delete "ids"
              (delete "type"
                 (body (example_request "CMD-REQ" ["v1"; "zz"; "v3"])))) →
         ∃ app' response,
           dispatch_to_uavs (example_request "CMD-REQ" ["v1"; "zz"; "v3"])
             example_client example_fleet_app = (app', inr response)
           ∧ ∀ i, i ∈ ["v1"; "zz"; "v3"] →
               uav_registry example_fleet_app !! i = None →
               failure response !! i = Some (PyStr "No such UAV")
               ∧ i ∉ success response
               ∧ receipt response !! i = None).
Proof.
  apply (dispatch_to_uavs_unresolved
           (example_request "CMD-REQ" ["v1"; "zz"; "v3"]) example_client
           example_fleet_app (FVal (PyStr "CMD-REQ")) ["v1"; "zz"; "v3"]).
  - reflexivity.
  - reflexivity.
  - exact example_fleet_consistent.
Defined.

(** ** Broadcasting vehicle status (UAV-INF) *)

Lemma collect_uav_statuses_registry a b uav_ids : ∀ statuses response,
  uav_registry a = uav_registry b →
  collect_uav_statuses a uav_ids statuses response
  = collect_uav_statuses b uav_ids statuses response.
Proof.
  induction uav_ids as [|x ids IH]; intros statuses response Hreg; [done|].
  cbn [collect_uav_statuses]. rewrite !_find_uav_by_id_run, Hreg.
  destruct (uav_registry b !! x); by apply IH.
Qed.

Lemma create_UAV_INF_message_for_registry a b uav_ids in_response_to :
  uav_registry a = uav_registry b →
  create_UAV_INF_message_for a uav_ids in_response_to
  = create_UAV_INF_message_for b uav_ids in_response_to.
Proof.
  intros Hreg. unfold create_UAV_INF_message_for.
  by rewrite (collect_uav_statuses_registry a b).
Qed.

Lemma request_to_send_UAV_INF_message_for_run uav_ids app :
  request_to_send_UAV_INF_message_for uav_ids app
  = (set_message_hub
       (hub_send (create_UAV_INF_message_for app uav_ids None) None
          (message_hub app)) app,
     inr tt).
Proof. reflexivity. Qed.

(** C9, as the code has it: every request to send a UAV-INF message sends
    its own message at once, as a broadcast; a series of requests produces
    one message per request, whatever the ids they name. *)
Theorem request_to_send_UAV_INF_message_for_sends_each requests app :
  ∃ app',
    for_each requests
      (λ uav_ids _, request_to_send_UAV_INF_message_for uav_ids) tt app
    = (app', inr tt)
    ∧ outbox (message_hub app')
      = outbox (message_hub app)
        ++ ((λ uav_ids, (create_UAV_INF_message_for app uav_ids None, None))
            <$> requests)
    ∧ length (outbox (message_hub app'))
      = length (outbox (message_hub app)) + length requests.
Proof.
  destruct (for_each_inv
              (λ done (_ : unit) a,
                 uav_registry a = uav_registry app
                 ∧ outbox (message_hub a)
                   = outbox (message_hub app)
                     ++ ((λ uav_ids,
                            (create_UAV_INF_message_for app uav_ids None, None))
                         <$> done))
              (λ uav_ids _, request_to_send_UAV_INF_message_for uav_ids)
              requests tt app)
    as (app' & [] & Hrun & _ & Hout).
  { split; [done|]. by rewrite app_nil_r. }
  { intros done uav_ids rest [] a _ [Hreg Hout].
    rewrite request_to_send_UAV_INF_message_for_run.
    eexists _, tt. split; [reflexivity|]. simpl. split; [done|].
    rewrite Hout, fmap_app, <-app_assoc. simpl.
    by rewrite (create_UAV_INF_message_for_registry a app). }
  exists app'. split; [done|]. split; [done|].
  by rewrite Hout, length_app, length_fmap.
Qed.

(** Three requests that name overlapping ids, one right after the other,
    leave three messages in the outbox. *)
Lemma requests_to_send_UAV_INF_are_not_coalesced :
  ∃ app',
    for_each [["v1"; "v2"]; ["v2"; "v3"]; ["v2"]]
      (λ uav_ids _, request_to_send_UAV_INF_message_for uav_ids) tt
      example_app
    = (app', inr tt)
    ∧ length (outbox (message_hub app')) = 3
    ∧ (λ item, body item.1 !! "type") <$> outbox (message_hub app')
      = [Some (FVal (PyStr "UAV-INF")); Some (FVal (PyStr "UAV-INF"));
         Some (FVal (PyStr "UAV-INF"))].
Proof.
  eexists. split; [vm_compute; reflexivity|]. split; vm_compute; reflexivity.
Qed.

(** ** Unsubscribing from subtrees (DEV-UNSUB) *)

Lemma subscriptions_of_insert client client' X mgr paths :
  subscriptions_of
    {| tree_paths := paths;
       subscriptions := <[client := X]> (subscriptions mgr) |} client'
  = if decide (client = client') then X else subscriptions_of mgr client'.
Proof.
  unfold subscriptions_of. simpl. case_decide as Hc.
  - subst. by rewrite lookup_insert_eq.
  - by rewrite lookup_insert_ne.
Qed.

(** What [unsubscribe] does to the counts of a client that holds the
    path. *)
Lemma unsubscribe_subscribed client path force mgr :
  multiplicity path (subscriptions_of mgr client) ≠ 0 →
  ∃ mgr',
    unsubscribe client path force mgr = inr mgr'
    ∧ tree_paths mgr' = tree_paths mgr
    ∧ (∀ q, multiplicity q (subscriptions_of mgr' client)
            = if decide (q = path)
              then (if force then 0
                    else multiplicity q (subscriptions_of mgr client) - 1)
              else multiplicity q (subscriptions_of mgr client))
    ∧ (∀ client', client' ≠ client →
         subscriptions_of mgr' client' = subscriptions_of mgr client').
Proof.
  intros Hsub. unfold unsubscribe. rewrite decide_False by done.
  eexists. split; [done|]. split; [done|]. split.
  - intros q. rewrite subscriptions_of_insert, decide_True by done.
    rewrite multiplicity_difference. destruct force.
    + rewrite multiplicity_scalar_mul, multiplicity_singleton.
      case_decide; subst; lia.
    + rewrite multiplicity_singleton. case_decide; lia.
  - intros client' Hne. by rewrite subscriptions_of_insert, decide_False.
Qed.

Lemma unsubscribe_path_subscribed client remove_all path response app :
  multiplicity path
    (subscriptions_of (device_tree_subscriptions app) (client_id client)) ≠ 0 →
  ∃ mgr',
    unsubscribe (client_id client) path remove_all
      (device_tree_subscriptions app) = inr mgr'
    ∧ unsubscribe_path client remove_all path response app
      = (set_device_tree_subscriptions mgr' app,
         inr (add_success path response)).
Proof.
  intros Hsub.
  destruct (unsubscribe_subscribed (client_id client) path remove_all
              (device_tree_subscriptions app) Hsub) as (mgr' & Hun & _).
  exists mgr'. split; [done|].
  unfold unsubscribe_path, bind, get_app. by rewrite Hun.
Qed.

(** The loop of [create_DEV_UNSUB_message_for] over distinct paths that the
    client holds. *)
Lemma unsubscribe_paths_run client remove_all paths response app :
  NoDup paths →
  (∀ q, q ∈ paths →
     multiplicity q
       (subscriptions_of (device_tree_subscriptions app) (client_id client))
     ≠ 0) →
  ∃ app' response',
    for_each paths (unsubscribe_path client remove_all) response app
    = (app', inr response')
    ∧ success response' = success response ++ paths
    ∧ failure response' = failure response
    ∧ (∀ q, multiplicity q
              (subscriptions_of (device_tree_subscriptions app')
                 (client_id client))
            = if decide (q ∈ paths)
              then (if remove_all then 0
                    else multiplicity q
                           (subscriptions_of (device_tree_subscriptions app)
                              (client_id client)) - 1)
              else multiplicity q
                     (subscriptions_of (device_tree_subscriptions app)
                        (client_id client)))
    ∧ (∀ client', client' ≠ client_id client →
         subscriptions_of (device_tree_subscriptions app') client'
         = subscriptions_of (device_tree_subscriptions app) client').
Proof.
  intros Hnd Hheld.
  set (I := λ (done : list string) (r : FlockwaveMessage)
              (a : FlockwaveServer),
         success r = success response ++ done
         ∧ failure r = failure response
         ∧ (∀ q, multiplicity q
                   (subscriptions_of (device_tree_subscriptions a)
                      (client_id client))
                 = if decide (q ∈ done)
                   then (if remove_all then 0
                         else multiplicity q
                                (subscriptions_of
                                   (device_tree_subscriptions app)
                                   (client_id client)) - 1)
                   else multiplicity q
                          (subscriptions_of (device_tree_subscriptions app)
                             (client_id client)))
         ∧ (∀ client', client' ≠ client_id client →
              subscriptions_of (device_tree_subscriptions a) client'
              = subscriptions_of (device_tree_subscriptions app) client')).
  cut (∃ app' response',
         for_each paths (unsubscribe_path client remove_all) response app
         = (app', inr response')
         ∧ I paths response' app').
  { intros (app' & response' & Hrun & HI). by exists app', response'. }
  apply (for_each_inv I); unfold I; clear I.
  { split; [by rewrite app_nil_r|]. split; [done|]. split; [|done].
    intros q. rewrite decide_False; [done|]. apply not_elem_of_nil. }
  intros done x rest r a Hl (Hs & Hf & Hm & Ho).
  rewrite Hl in Hnd. apply NoDup_app in Hnd as (_ & Hfresh & _).
  assert (x ∉ done) as Hx by (intros ?; by eapply Hfresh; [|left]).
  assert (multiplicity x
            (subscriptions_of (device_tree_subscriptions a) (client_id client))
          ≠ 0) as Hheld_x.
  { rewrite Hm, decide_False by done. apply Hheld. rewrite Hl.
    apply elem_of_app. right. by left. }
  destruct (unsubscribe_subscribed (client_id client) x remove_all
              (device_tree_subscriptions a) Hheld_x)
    as (mgr' & Hun & _ & Hm' & Ho').
  destruct (unsubscribe_path_subscribed client remove_all x r a Hheld_x)
    as (mgr'' & Hun' & Hrun).
  assert (mgr'' = mgr') as -> by congruence.
  eexists _, _. split; [exact Hrun|]. simpl.
  split; [by rewrite Hs, app_assoc|]. split; [done|]. split.
  - intros q. rewrite Hm', decide_elem_of_snoc.
    case_decide; [|done]. subst q. by rewrite Hm, decide_False.
  - intros client' Hne. rewrite Ho' by done. by apply Ho.
Qed.

Lemma elem_of_list_subscriptions client path_filter mgr q :
  q ∈ elements (dom (list_subscriptions client path_filter mgr))
  ↔ under_any path_filter q = true
    ∧ multiplicity q (subscriptions_of mgr client) ≠ 0.
Proof.
  unfold list_subscriptions.
  rewrite elem_of_elements, gmultiset_elem_of_dom, elem_of_multiplicity,
    multiplicity_filter.
  case_decide; split; intros; destruct_and?; try done; try lia.
  split; [done|lia].
Qed.

(** C8, as the code has it: a DEV-UNSUB request with [includeSubtrees] is
    expanded to the paths at or under the requested ones that the client is
    subscribed to, and each of them is unsubscribed once and reported as a
    success.  With [removeAll] the client is left with no subscription at or
    under the requested paths; without it the count of each such
    subscription goes down by one.  Paths elsewhere keep their counts. *)
Theorem handle_DEV_UNSUB_subtrees message sender app paths :
  body message !! "paths" = Some (FList paths) →
  truthy (dict_get "includeSubtrees" (FVal (PyBool false)) (body message))
  = true →
  ∃ app' response,
    handle_DEV_UNSUB message sender app = (app', inr response)
    ∧ (∀ q, under_any paths q = true →
         multiplicity q
           (subscriptions_of (device_tree_subscriptions app')
              (client_id sender))
         = if truthy (dict_get "removeAll" (FVal (PyBool false)) (body message))
           then 0
           else multiplicity q
                  (subscriptions_of (device_tree_subscriptions app)
                     (client_id sender)) - 1)
    ∧ (∀ q, under_any paths q = false →
         multiplicity q
           (subscriptions_of (device_tree_subscriptions app')
              (client_id sender))
         = multiplicity q
             (subscriptions_of (device_tree_subscriptions app)
                (client_id sender)))
    ∧ NoDup (success response)
    ∧ (∀ q, q ∈ success response
            ↔ under_any paths q = true
              ∧ multiplicity q
                  (subscriptions_of (device_tree_subscriptions app)
                     (client_id sender)) ≠ 0)
    ∧ failure response = ∅.
Proof.
  intros Hpaths Hsub.
  unfold handle_DEV_UNSUB, dict_getitem. rewrite Hpaths, Hsub.
  unfold bind at 1, lift at 1. unfold bind at 1, lift at 1. cbn [py_iter].
  unfold create_DEV_UNSUB_message_for. unfold bind at 1, get_app at 1.
  set (remove_all :=
         truthy (dict_get "removeAll" (FVal (PyBool false)) (body message))).
  set (l := elements (dom (list_subscriptions (client_id sender) paths
                             (device_tree_subscriptions app)))).
  destruct (unsubscribe_paths_run sender remove_all l
              (create_response_or_notification ∅ (Some message)) app)
    as (app' & response & Hrun & Hs & Hf & Hm & _).
  { apply NoDup_elements. }
  { by intros q [_ ?]%elem_of_list_subscriptions. }
  exists app', response. split; [done|]. split.
  { intros q Hq. rewrite Hm.
    destruct (decide (q ∈ l)) as [Hin|Hin]; [done|].
    assert (multiplicity q
              (subscriptions_of (device_tree_subscriptions app)
                 (client_id sender)) = 0) as ->.
    { destruct (decide (multiplicity q
                          (subscriptions_of (device_tree_subscriptions app)
                             (client_id sender)) = 0)) as [?|Hne]; [done|].
      exfalso. apply Hin. by apply elem_of_list_subscriptions. }
    by destruct remove_all. }
  split.
  { intros q Hq. rewrite Hm, decide_False; [done|].
    intros [? _]%elem_of_list_subscriptions. congruence. }
  split; [rewrite Hs; apply NoDup_elements|].
  split; [|done].
  intros q. rewrite Hs. simpl. apply elem_of_list_subscriptions.
Qed.

Lemma handle_DEV_UNSUB_subtrees_witness :
  ∃ app' response,
    handle_DEV_UNSUB example_unsub_request example_client example_app
    = (app', inr response)
    ∧ (∀ q, under_any ["/A"] q = true →
         multiplicity q
           (subscriptions_of (device_tree_subscriptions app')
              (client_id example_client))
         = if truthy (dict_get "removeAll" (FVal (PyBool false))
                        (body example_unsub_request))
           then 0
           else multiplicity q
                  (subscriptions_of (device_tree_subscriptions example_app)
                     (client_id example_client)) - 1)
    ∧ (∀ q, under_any ["/A"] q = false →
         multiplicity q
           (subscriptions_of (device_tree_subscriptions app')
              (client_id example_client))
         = multiplicity q
             (subscriptions_of (device_tree_subscriptions example_app)
                (client_id example_client)))
    ∧ NoDup (success response)
    ∧ (∀ q, q ∈ success response
            ↔ under_any ["/A"] q = true
              ∧ multiplicity q
                  (subscriptions_of (device_tree_subscriptions example_app)
                     (client_id example_client)) ≠ 0)
    ∧ failure response = ∅.
Proof.
  apply (handle_DEV_UNSUB_subtrees example_unsub_request example_client
           example_app ["/A"]); reflexivity.
Defined.

(** A path under /A that the client subscribed to twice is still
    subscribed to after a DEV-UNSUB request for the subtree of /A. *)
Lemma handle_DEV_UNSUB_keeps_repeated_subscription :
  at_or_under "/A" "/A/b" = true
  ∧ multiplicity "/A/b"
      (subscriptions_of (device_tree_subscriptions example_app) "c1") = 2
  ∧ ∃ app' response,
      handle_DEV_UNSUB example_unsub_request example_client example_app
      = (app', inr response)
      ∧ multiplicity "/A/b"
          (subscriptions_of (device_tree_subscriptions app') "c1") = 1.
Proof.
  split; [reflexivity|]. split; [vm_compute; reflexivity|].
  eexists _, _. split; [vm_compute; reflexivity|]. vm_compute. reflexivity.
Qed.

(** * Properties of the GPS fix model *)

(** A fix type and its integer value determine each other: looking up the
    value of a member gives the member back, and a successful lookup
    returns a member with the value asked for, which lies between 0 and 7. *)
Theorem gps_fix_type_round_trip (t : gps.GPSFixType) (v : Z) :
  gps.GPSFixType_of (gps.value t) = inr t
  ∧ (gps.GPSFixType_of v = inr t ↔ gps.value t = v)
  ∧ (0 ≤ gps.value t ≤ 7)%Z.
Proof.
  split; [by destruct t|]. split; [|destruct t; simpl; lia].
  split.
  - unfold gps.GPSFixType_of. repeat case_decide; intros; by simplify_eq.
  - intros <-. by destruct t.
Qed.

(** [update_from] with an integer: a value between 0 and 7 sets the type to
    the member with that value and clears the number of satellites; any
    other integer raises [ValueError] and leaves the fix as it was. *)
Theorem gps_update_from_integer (v : Z) (self : gps.GPSFix) :
  ((0 ≤ v ≤ 7)%Z →
   ∃ t, gps.value t = v
        ∧ gps.update_from (gps.FromInt v) self
          = ({| gps.type := t; gps.num_satellites := None |}, None))
  ∧ (¬ (0 ≤ v ≤ 7)%Z →
     ∃ ex, gps.update_from (gps.FromInt v) self = (self, Some ex)
           ∧ isinstance ex "ValueError" = true).
Proof.
  unfold gps.update_from, gps.GPSFixType_of. split; intros Hv.
  - repeat case_decide; subst; try (eexists; split; [|reflexivity]; done).
    lia.
  - repeat case_decide; subst; try lia. by eexists.
Qed.

(** [update_from] with a fix type or with another fix never raises and
    overwrites the fix whatever it held: a fix type becomes the type, with
    the number of satellites cleared, and another fix is copied field by
    field, so that the fix equals the one it was updated from. *)
Theorem gps_update_from_overwrites (self : gps.GPSFix) :
  (∀ t, gps.update_from (gps.FromType t) self
        = ({| gps.type := t; gps.num_satellites := None |}, None))
  ∧ (∀ other, gps.update_from (gps.FromFix other) self = (other, None))
  ∧ (∀ source self' self2,
       gps.update_from source self = (self', None) →
       gps.update_from source self2 = (self', None)
       ∧ gps.update_from source self' = (self', None)).
Proof.
  split; [by intros []|]. split; [by intros []|].
  intros source self' self2. unfold gps.update_from.
  destruct source as [v|t|o].
  - destruct (gps.GPSFixType_of v); [done|]. intros ?. by simplify_eq.
  - destruct (gps.GPSFixType_of (gps.value t)); [done|]. intros ?.
    by simplify_eq.
  - intros ?. by simplify_eq.
Qed.

(** * Properties of the preflight check summary *)

Section preflight_facts.
Import preflight.

Lemma numeric_get_inverse r : numeric_inverse (numeric_get r 0) = Some r.
Proof. by destruct r. Qed.

Lemma numeric_get_nonneg r : (0 ≤ numeric_get r 0)%Z.
Proof. destruct r; vm_compute; discriminate. Qed.

Lemma py_max_spec x xs :
  py_max x xs ∈ x :: xs ∧ ∀ y, y ∈ x :: xs → (y ≤ py_max x xs)%Z.
Proof.
  unfold py_max. revert x. induction xs as [|z xs IH]; intros x; simpl.
  - split; [by left|]. intros y ->%list_elem_of_singleton. lia.
  - destruct (IH (x `max` z)%Z) as [Hin Hle]. split.
    + apply elem_of_cons in Hin as [Heq|Hin]; [|by do 2 right].
      rewrite Heq. destruct (Z.max_spec x z) as [[_ ->]|[_ ->]];
        [right; by left|by left].
    + intros y Hy.
      assert (x ≤ foldl Z.max (x `max` z) xs)%Z as Hx.
      { etrans; [apply (Z.le_max_l x z)|]. apply Hle. by left. }
      assert (z ≤ foldl Z.max (x `max` z) xs)%Z as Hz.
      { etrans; [apply (Z.le_max_r x z)|]. apply Hle. by left. }
      apply elem_of_cons in Hy as [->|[->|Hy]%elem_of_cons]; [done|done|].
      apply Hle. by right.
Qed.

Lemma failed_results_rank x :
  x ∈ [SOFT_FAILURE; FAILURE; ERROR] ↔ (40 ≤ numeric_get x 0)%Z.
Proof.
  split.
  - intros H. repeat (apply elem_of_cons in H as [->|H]);
      [by vm_compute..|by apply elem_of_nil in H].
  - destruct x; intros H; first [set_solver|by vm_compute in H].
Qed.

Lemma conclusive_results_rank x :
  x ∈ [FAILURE; ERROR] ↔ (50 ≤ numeric_get x 0)%Z.
Proof.
  split.
  - intros H. repeat (apply elem_of_cons in H as [->|H]);
      [by vm_compute..|by apply elem_of_nil in H].
  - destruct x; intros H; first [set_solver|by vm_compute in H].
Qed.

(** What [_get_result_from_items] computes, in terms of the items. *)
Lemma _get_result_from_items_spec self :
  ∃ r running,
    _get_result_from_items self = Some (r, running)
    ∧ (items self = [] → r = OFF ∧ running = false)
    ∧ (items self ≠ [] → ∃ item, item ∈ items self ∧ item_result item = r)
    ∧ (∀ item, item ∈ items self →
         (numeric_get (item_result item) 0 ≤ numeric_get r 0)%Z)
    ∧ (running = true
       ↔ ∃ item, item ∈ items self ∧ item_result item = RUNNING).
Proof.
  unfold _get_result_from_items.
  destruct (items self) as [|item rest] eqn:Hitems.
  { exists OFF, false. split; [done|]. split; [done|]. split; [done|].
    split; [by intros ? ?%elem_of_nil|].
    split; [done|]. by intros (? & ?%elem_of_nil & _). }
  set (numerics := (λ item, numeric_get (item_result item) 0) <$> rest).
  destruct (py_max_spec (numeric_get (item_result item) 0) numerics)
    as [Hin Hle].
  assert (∃ best, best ∈ item :: rest
                  ∧ py_max (numeric_get (item_result item) 0) numerics
                    = numeric_get (item_result best) 0) as (best & Hbest & Hmax).
  { apply elem_of_cons in Hin as [Heq|Hin].
    - exists item. split; [by left|done].
    - apply list_elem_of_fmap in Hin as (best & Heq & Hb).
      exists best. split; [by right|done]. }
  rewrite Hmax, numeric_get_inverse.
  eexists _, _. split; [done|]. split; [done|].
  split; [by intros _; exists best|]. split.
  - intros it Hit. rewrite <-Hmax. apply Hle.
    apply elem_of_cons in Hit as [->|Hit]; [by left|right].
    by apply (list_elem_of_fmap_2 (λ item, numeric_get (item_result item) 0)).
  - rewrite existsb_exists. split.
    + intros (it & Hit%list_elem_of_In & Hr%bool_decide_eq_true). by exists it.
    + intros (it & Hit & Hr). exists it.
      split; [by apply list_elem_of_In|by apply bool_decide_eq_true].
Qed.

End preflight_facts.

(** The summary of a preflight report never fails to compute.  Without
    items it is [OFF] and not running; with items it is the result of one of
    them, no item ranks higher in the numeric ordering, and it is marked as
    running exactly when some item is [RUNNING]. *)
Theorem preflight_summary_is_maximum (self : preflight.PreflightCheckInfo) :
  ∃ r running,
    preflight._get_result_from_items self = Some (r, running)
    ∧ (preflight.items self = [] → r = preflight.OFF ∧ running = false)
    ∧ (preflight.items self ≠ [] →
       ∃ item, item ∈ preflight.items self ∧ preflight.item_result item = r)
    ∧ (∀ item, item ∈ preflight.items self →
         (preflight.numeric_get (preflight.item_result item) 0
          ≤ preflight.numeric_get r 0)%Z)
    ∧ (running = true
       ↔ ∃ item, item ∈ preflight.items self
                 ∧ preflight.item_result item = preflight.RUNNING).
Proof. apply _get_result_from_items_spec. Qed.

(** After [update_summary] the report counts as failed exactly when some
    item is a soft failure, a failure or an error, as failed conclusively
    exactly when some item is a failure or an error, and as in progress
    exactly when some item is running; a conclusive failure is a failure. *)
Theorem preflight_failed_iff (self : preflight.PreflightCheckInfo) :
  ∃ self',
    preflight.update_summary self = Some self'
    ∧ preflight.items self' = preflight.items self
    ∧ (preflight.failed self' = true
       ↔ ∃ item, item ∈ preflight.items self
           ∧ preflight.item_result item
             ∈ [preflight.SOFT_FAILURE; preflight.FAILURE; preflight.ERROR])
    ∧ (preflight.failed_conclusively self' = true
       ↔ ∃ item, item ∈ preflight.items self
           ∧ preflight.item_result item
             ∈ [preflight.FAILURE; preflight.ERROR])
    ∧ (preflight.in_progress self' = true
       ↔ ∃ item, item ∈ preflight.items self
           ∧ preflight.item_result item = preflight.RUNNING)
    ∧ (preflight.failed_conclusively self' = true →
       preflight.failed self' = true).
Proof.
  destruct (_get_result_from_items_spec self)
    as (r & running & Hget & Hempty & Hsome & Hmax & Hrun).
  unfold preflight.update_summary. rewrite Hget.
  eexists. split; [done|]. split; [done|].
  unfold preflight.failed, preflight.failed_conclusively, preflight.in_progress.
  simpl. rewrite !bool_decide_eq_true.
  assert (∀ (set : list preflight.PreflightCheckResult) (bound : Z),
            preflight.OFF ∉ set →
            (∀ x, x ∈ set ↔ (bound ≤ preflight.numeric_get x 0)%Z) →
            r ∈ set ↔ ∃ item, item ∈ preflight.items self
                              ∧ preflight.item_result item ∈ set) as Hiff.
  { intros set bound Hoff Hset. split.
    - intros Hr. destruct (preflight.items self) as [|i0 rest] eqn:Hitems.
      + destruct (Hempty eq_refl) as [-> _]. done.
      + destruct Hsome as (item & Hin & <-); [done|]. by exists item.
    - intros (item & Hin & Hs). apply Hset. apply Hset in Hs.
      etrans; [exact Hs|]. by apply Hmax. }
  split; [|split; [|split; [done|]]].
  - apply (Hiff _ 40%Z); [set_solver|apply failed_results_rank].
  - apply (Hiff _ 50%Z); [set_solver|apply conclusive_results_rank].
  - set_solver.
Qed.

(** Adding an item to a preflight report does not change its summary: the
    new item is [OFF], the lowest rank, so the result and the running flag
    are what [update_summary] gave before the item was added. *)
Theorem preflight_add_item_keeps_summary (id : string) (label : option string)
    (self : preflight.PreflightCheckInfo) :
  ∃ before after,
    preflight.update_summary self = Some before
    ∧ preflight.add_item id label self = Some after
    ∧ preflight.items after
      = preflight.items self ++ [preflight.new_item id label]
    ∧ preflight.result after = preflight.result before
    ∧ preflight.in_progress after = preflight.in_progress before.
Proof.
  unfold preflight.add_item, preflight.update_summary,
    preflight._get_result_from_items, preflight.in_progress. simpl.
  destruct (preflight.items self) as [|item rest] eqn:Hitems; simpl.
  { by eexists _, _. }
  rewrite fmap_app, existsb_app. simpl. rewrite !orb_false_r.
  unfold preflight.py_max. rewrite foldl_app. simpl.
  change (preflight.numeric_get preflight.OFF 0) with 0%Z.
  destruct (py_max_spec
              (preflight.numeric_get (preflight.item_result item) 0)
              ((λ item, preflight.numeric_get (preflight.item_result item) 0)
               <$> rest)) as [_ Hle].
  unfold preflight.py_max in Hle. rewrite Z.max_l.
  - destruct (_get_result_from_items_spec self)
      as (r & running & Hget & _).
    unfold preflight._get_result_from_items, preflight.py_max in Hget.
    rewrite Hitems in Hget.
    destruct (preflight.numeric_inverse _) as [r'|]; [|done].
    by eexists _, _.
  - etrans; [apply (numeric_get_nonneg (preflight.item_result item))|].
    apply Hle. by left.
Qed.

(** * Further properties of the application object *)

(** ** The UAV-INF message *)

Lemma collect_uav_statuses_spec app uav_ids : ∀ statuses response,
  ∃ statuses' response',
    collect_uav_statuses app uav_ids statuses response = (statuses', response')
    ∧ success response' = success response
    ∧ receipt response' = receipt response
    ∧ correlation_id response' = correlation_id response
    ∧ (∀ i, statuses' !! i
            = match uav_registry app !! i with
              | Some uav =>
                  if decide (i ∈ uav_ids) then Some (uav_status uav)
                  else statuses !! i
              | None => statuses !! i
              end)
    ∧ (∀ i, failure response' !! i
            = match uav_registry app !! i with
              | Some _ => failure response !! i
              | None =>
                  if decide (i ∈ uav_ids) then Some (PyStr "No such UAV")
                  else failure response !! i
              end).
Proof.
  induction uav_ids as [|x ids IH]; intros statuses response.
  - exists statuses, response. split; [done|]. split; [done|].
    split; [done|]. split; [done|].
    split; intros i; destruct (uav_registry app !! i); try done;
      by rewrite decide_False by apply not_elem_of_nil.
  - cbn [collect_uav_statuses]. rewrite _find_uav_by_id_run.
    destruct (uav_registry app !! x) as [uav|] eqn:Hx.
    + destruct (IH (<[x := uav_status uav]> statuses) response)
        as (st' & r' & Hrun & Hs & Hr & Hc & Hst & Hf).
      exists st', r'. split; [done|]. split; [done|]. split; [done|].
      split; [done|]. split.
      * intros i. rewrite Hst.
        destruct (uav_registry app !! i) as [u|] eqn:Hi.
        -- destruct (decide (i ∈ ids)) as [Hin|Hin].
           ++ by rewrite decide_True by by right.
           ++ destruct (decide (x = i)) as [->|Hne].
              ** rewrite decide_True by by left.
                 rewrite lookup_insert_eq. congruence.
              ** rewrite lookup_insert_ne by done.
                 rewrite decide_False; [done|].
                 intros [?|?]%elem_of_cons; congruence.
        -- rewrite lookup_insert_ne; [done|]. intros ->. congruence.
      * intros i. rewrite Hf.
        destruct (uav_registry app !! i) as [u|] eqn:Hi; [done|].
        destruct (decide (i ∈ ids)) as [Hin|Hin].
        -- by rewrite decide_True by by right.
        -- rewrite decide_False; [done|].
           intros [?|?]%elem_of_cons; congruence.
    + destruct (IH statuses (add_failure x (PyStr "No such UAV") response))
        as (st' & r' & Hrun & Hs & Hr & Hc & Hst & Hf).
      exists st', r'. split; [done|]. split; [done|]. split; [done|].
      split; [done|]. split.
      * intros i. rewrite Hst.
        destruct (uav_registry app !! i) as [u|] eqn:Hi; [|done].
        destruct (decide (i ∈ ids)) as [Hin|Hin].
        -- by rewrite decide_True by by right.
        -- rewrite decide_False; [done|].
           intros [?|?]%elem_of_cons; congruence.
      * intros i. rewrite Hf. simpl.
        destruct (uav_registry app !! i) as [u|] eqn:Hi.
        -- rewrite lookup_insert_ne; [done|]. intros ->. congruence.
        -- destruct (decide (i ∈ ids)) as [Hin|Hin].
           ++ by rewrite decide_True by by right.
           ++ destruct (decide (x = i)) as [->|Hne].
              ** rewrite decide_True by by left. by rewrite lookup_insert_eq.
              ** rewrite lookup_insert_ne by done.
                 rewrite decide_False; [done|].
                 intros [?|?]%elem_of_cons; congruence.
Qed.

(** The UAV-INF message sorts the requested ids in two: an id the registry
    knows is a key of the status mapping, with the status of its vehicle,
    and is no failure; an id it does not know is a failure with the reason
    "No such UAV" and has no status.  Ids that were not requested appear
    nowhere, and the message has no success or receipt entries. *)
Theorem create_UAV_INF_message_for_sorts_ids app uav_ids in_response_to :
  ∃ statuses,
    body (create_UAV_INF_message_for app uav_ids in_response_to) !! "status"
    = Some (FDict statuses)
    ∧ body (create_UAV_INF_message_for app uav_ids in_response_to) !! "type"
      = Some (FVal (PyStr "UAV-INF"))
    ∧ (∀ i, statuses !! i
            = if decide (i ∈ uav_ids)
              then uav_status <$> uav_registry app !! i else None)
    ∧ (∀ i, failure (create_UAV_INF_message_for app uav_ids in_response_to)
              !! i
            = if decide (i ∈ uav_ids)
              then match uav_registry app !! i with
                   | Some _ => None
                   | None => Some (PyStr "No such UAV")
                   end
              else None)
    ∧ success (create_UAV_INF_message_for app uav_ids in_response_to) = []
    ∧ receipt (create_UAV_INF_message_for app uav_ids in_response_to) = ∅
    ∧ correlation_id (create_UAV_INF_message_for app uav_ids in_response_to)
      = in_response_to ≫= correlation_id.
Proof.
  unfold create_UAV_INF_message_for.
  destruct (collect_uav_statuses_spec app uav_ids ∅
              (create_response_or_notification ∅ in_response_to))
    as (statuses & r & -> & Hs & Hr & Hc & Hst & Hf).
  exists statuses. simpl. split; [by rewrite lookup_insert_eq|].
  split; [by rewrite lookup_insert_ne, lookup_singleton_eq|].
  split.
  { intros i. rewrite Hst, lookup_empty.
    destruct (uav_registry app !! i); by case_decide. }
  split.
  { intros i. rewrite Hf. simpl. rewrite lookup_empty.
    destruct (uav_registry app !! i); by case_decide. }
  by rewrite Hs, Hr, Hc.
Qed.

(** ** Requests that cannot be dispatched *)

(** A request whose body lacks the list it is about (or its type) raises a
    [KeyError] that names the missing key, before anything is changed. *)
Theorem requests_without_their_list_raise_KeyError message sender app :
  (body message !! "type" = None →
   dispatch_to_uavs message sender app = (app, inl (KeyError "type")))
  ∧ (is_Some (body message !! "type") → body message !! "ids" = None →
     dispatch_to_uavs message sender app = (app, inl (KeyError "ids")))
  ∧ (body message !! "ids" = None →
     handle_CMD_DEL message sender app = (app, inl (KeyError "ids"))
     ∧ handle_UAV_INF message sender app = (app, inl (KeyError "ids")))
  ∧ (body message !! "paths" = None →
     handle_DEV_UNSUB message sender app = (app, inl (KeyError "paths"))
     ∧ handle_DEV_SUB message sender app = (app, inl (KeyError "paths"))).
Proof.
  split; [|split; [|split]].
  - intros Ht. unfold dispatch_to_uavs, dict_pop. by rewrite Ht.
  - intros [t Ht] Hi. unfold dispatch_to_uavs, dict_pop. rewrite Ht.
    unfold bind at 1, lift at 1. by rewrite lookup_delete_ne, Hi.
  - intros Hi. unfold handle_CMD_DEL, handle_UAV_INF, dict_getitem.
    by rewrite Hi.
  - intros Hp. unfold handle_DEV_UNSUB, handle_DEV_SUB, dict_getitem.
    by rewrite Hp.
Qed.

Lemma dispatch_unknown_groups sender parameters groups : ∀ r app,
  for_each groups (dispatch_to_driver sender None parameters) r app
  = (app,
     inr (foldl (λ r group, add_failures group.2 "Operation not supported" r)
            r groups)).
Proof.
  induction groups as [|[d uavs] groups IH]; intros r app; [done|].
  rewrite for_each_cons. unfold bind. rewrite dispatch_to_driver_run.
  simpl. apply IH.
Qed.

Lemma add_failures_groups_spec err groups : ∀ r,
  success (foldl (λ r group, add_failures group.2 err r) r groups) = success r
  ∧ receipt (foldl (λ r group, add_failures group.2 err r) r groups) = receipt r
  ∧ ∀ i, failure (foldl (λ r group, add_failures group.2 err r) r groups) !! i
         = if decide (i ∈ group_ids groups) then Some (PyStr err)
           else failure r !! i.
Proof.
  induction groups as [|[d uavs] groups IH]; intros r.
  - split; [done|]. split; [done|]. intros i.
    by rewrite decide_False by apply not_elem_of_nil.
  - simpl. destruct (IH (add_failures uavs err r)) as (-> & -> & Hf).
    split; [apply add_failures_success|]. split; [apply add_failures_receipt|].
    intros i. rewrite Hf, add_failures_failure.
    unfold group_ids. rewrite fmap_cons. simpl. rewrite fmap_app.
    destruct (decide (i ∈ uav_id <$> mjoin groups.*2)) as [Hin|Hin].
    + rewrite decide_True; [done|]. apply elem_of_app. by right.
    + destruct (decide (i ∈ uav_id <$> uavs)) as [Hu|Hu].
      * rewrite decide_True; [done|]. apply elem_of_app. by left.
      * rewrite decide_False; [done|]. by intros [?|?]%elem_of_app.
Qed.

(** A request whose type is not in the table of driver methods reaches no
    driver: the application state is left as it was, every requested
    vehicle that the registry knows is recorded as a failure with the
    reason "Operation not supported" and every unknown id with the reason
    "No such UAV". *)
Theorem dispatch_to_uavs_unknown_type message sender app message_type uav_ids :
  body message !! "type" = Some message_type →
  body message !! "ids" = Some (FList uav_ids) →
  method_name_for message_type = inr None →
  registry_consistent app →
  ∃ response,
    dispatch_to_uavs message sender app = (app, inr response)
    ∧ success response = []
    ∧ receipt response = ∅
    ∧ ∀ i, failure response !! i
           = if decide (i ∈ uav_ids)
             then match uav_registry app !! i with
                  | Some _ => Some (PyStr "Operation not supported")
                  | None => Some (PyStr "No such UAV")
                  end
             else None.
Proof.
  intros Htype Hids Hname Hcons.
  rewrite (dispatch_to_uavs_run _ _ _ _ _ Htype Hids), Hname.
  set (r0 := create_response_or_notification ∅ (Some message)).
  destruct (_sort_uavs_by_drivers_run app uav_ids r0)
    as (groups & r1 & -> & Hs & Hr & Hf1 & Hf2 & Hnd & Hgroup & Hres).
  cbn [fst snd]. rewrite dispatch_unknown_groups.
  destruct (add_failures_groups_spec "Operation not supported" groups r1)
    as (Hs' & Hr' & Hf').
  eexists. split; [done|]. split; [by rewrite Hs', Hs|].
  split; [by rewrite Hr', Hr|].
  assert (∀ i, i ∈ group_ids groups
               ↔ i ∈ uav_ids ∧ is_Some (uav_registry app !! i)) as Hgids.
  { intros i. rewrite elem_of_group_ids. split.
    - intros (d & uavs & uav & Hg & Hu & <-).
      destruct (Hgroup _ _ Hg) as [-> _].
      apply list_elem_of_filter in Hu as [_ (j & Hj & Hreg)%elem_of_resolved].
      rewrite (Hcons _ _ Hreg). split; [done|by eexists].
    - intros [Hi [uav Hreg]].
      destruct (Hres uav) as (uavs & Hg & Hu).
      { apply elem_of_resolved. by exists i. }
      exists (uav_driver uav), uavs, uav. split; [done|]. split; [done|].
      by apply Hcons. }
  intros i. rewrite Hf'.
  destruct (decide (i ∈ group_ids groups)) as [Hg|Hg].
  - apply Hgids in Hg as [Hi [uav Hreg]].
    by rewrite decide_True, Hreg by done.
  - destruct (decide (i ∈ uav_ids)) as [Hi|Hi].
    + destruct (uav_registry app !! i) as [uav|] eqn:Hreg.
      * exfalso. apply Hg, Hgids. split; [done|by eexists].
      * by apply Hf1.
    + rewrite Hf2 by done. subst r0. simpl. apply lookup_empty.
Qed.

Lemma dispatch_to_uavs_unknown_type_witness :
  ∃ response,
    dispatch_to_uavs (example_request "UAV-HOVER" ["v1"; "zz"])
      example_client example_fleet_app = (example_fleet_app, inr response)
    ∧ success response = []
    ∧ receipt response = ∅
    ∧ ∀ i, failure response !! i
           = if decide (i ∈ ["v1"; "zz"])
             then match uav_registry example_fleet_app !! i with
                  | Some _ => Some (PyStr "Operation not supported")
                  | None => Some (PyStr "No such UAV")
                  end
             else None.
Proof.
  apply (dispatch_to_uavs_unknown_type
           (example_request "UAV-HOVER" ["v1"; "zz"]) example_client
           example_fleet_app (FVal (PyStr "UAV-HOVER")) ["v1"; "zz"]).
  - reflexivity.
  - reflexivity.
  - reflexivity.
  - exact example_fleet_consistent.
Defined.

(** ** One call per driver *)




(** ** Subscribing and unsubscribing path by path *)

Lemma occurrences_nil q : occurrences q [] = 0.
Proof. done. Qed.

Lemma occurrences_snoc q l x :
  occurrences q (l ++ [x]) = occurrences q l + (if decide (x = q) then 1 else 0).
Proof.
  unfold occurrences. rewrite filter_app, length_app, filter_cons.
  by case_decide.
Qed.

Lemma occurrences_pos q l : 0 < occurrences q l ↔ q ∈ l.
Proof.
  unfold occurrences. split.
  - intros H. destruct (filter (λ p, p = q) l) as [|x l'] eqn:E;
      [simpl in H; lia|].
    assert (x ∈ filter (λ p, p = q) l) as Hx by (rewrite E; by left).
    by apply list_elem_of_filter in Hx as [-> ?].
  - intros Hin.
    assert (q ∈ filter (λ p, p = q) l) as Hf by by apply list_elem_of_filter.
    destruct (filter (λ p, p = q) l); [by apply elem_of_nil in Hf|simpl; lia].
Qed.

Lemma subscribe_known client path mgr :
  path ∈ tree_paths mgr →
  ∃ mgr',
    subscribe client path mgr = inr mgr'
    ∧ tree_paths mgr' = tree_paths mgr
    ∧ (∀ q, multiplicity q (subscriptions_of mgr' client)
            = multiplicity q (subscriptions_of mgr client)
              + (if decide (path = q) then 1 else 0))
    ∧ (∀ client', client' ≠ client →
         subscriptions_of mgr' client' = subscriptions_of mgr client').
Proof.
  intros Hin. unfold subscribe. rewrite decide_True by done.
  eexists. split; [done|]. split; [done|]. split.
  - intros q. rewrite subscriptions_of_insert, decide_True by done.
    rewrite multiplicity_disj_union, multiplicity_singleton.
    repeat case_decide; subst; (done || lia).
  - intros client' Hne. by rewrite subscriptions_of_insert, decide_False.
Qed.

(** The loop of [create_DEV_SUB_message_for], from any ledger. *)
Lemma subscribe_paths_run client paths r0 app :
  let tree := tree_paths (device_tree_subscriptions app) in
  let held q :=
    multiplicity q
      (subscriptions_of (device_tree_subscriptions app) (client_id client)) in
  ∃ app' response,
    for_each paths (subscribe_path client) r0 app = (app', inr response)
    ∧ tree_paths (device_tree_subscriptions app') = tree
    ∧ (∀ q, multiplicity q
              (subscriptions_of (device_tree_subscriptions app')
                 (client_id client))
            = held q + (if decide (q ∈ tree) then occurrences q paths else 0))
    ∧ (∀ client', client' ≠ client_id client →
         subscriptions_of (device_tree_subscriptions app') client'
         = subscriptions_of (device_tree_subscriptions app) client')
    ∧ (∀ q, occurrences q (success response)
            = occurrences q (success r0)
              + (if decide (q ∈ tree) then occurrences q paths else 0))
    ∧ (∀ q, failure response !! q
            = if decide (q ∈ paths ∧ q ∉ tree)
              then Some (PyStr "No such device tree path")
              else failure r0 !! q).
Proof.
  intros tree held.
  set (I := λ (done : list string) (r : FlockwaveMessage)
              (a : FlockwaveServer),
         tree_paths (device_tree_subscriptions a) = tree
         ∧ (∀ q, multiplicity q
                   (subscriptions_of (device_tree_subscriptions a)
                      (client_id client))
                 = held q
                   + (if decide (q ∈ tree) then occurrences q done else 0))
         ∧ (∀ client', client' ≠ client_id client →
              subscriptions_of (device_tree_subscriptions a) client'
              = subscriptions_of (device_tree_subscriptions app) client')
         ∧ (∀ q, occurrences q (success r)
                 = occurrences q (success r0)
                   + (if decide (q ∈ tree) then occurrences q done else 0))
         ∧ (∀ q, failure r !! q
                 = if decide (q ∈ done ∧ q ∉ tree)
                   then Some (PyStr "No such device tree path")
                   else failure r0 !! q)).
  cut (∃ app' response,
         for_each paths (subscribe_path client) r0 app = (app', inr response)
         ∧ I paths response app').
  { intros (app' & response & Hrun & HI). by exists app', response. }
  apply (for_each_inv I); unfold I; clear I; subst held; cbn beta.
  { split; [done|].
    split; [by intros q; rewrite occurrences_nil; case_decide; lia|].
    split; [done|].
    split; [by intros q; rewrite occurrences_nil; case_decide; lia|].
    intros q. rewrite decide_False; [done|]. by intros [?%elem_of_nil _]. }
  intros done x rest r a _ (Htree & Hm & Ho & Hs & Hf).
  unfold subscribe_path, bind, get_app.
  destruct (decide (x ∈ tree)) as [Hx|Hx].
  - destruct (subscribe_known (client_id client) x (device_tree_subscriptions a))
      as (mgr' & Hsub & Htree' & Hm' & Ho'); [by rewrite Htree|].
    rewrite Hsub. eexists _, _. split; [reflexivity|]. simpl.
    split; [congruence|]. split.
    { intros q. rewrite Hm', Hm, occurrences_snoc.
      repeat case_decide; subst; (done || lia). }
    split; [by intros client' Hne; rewrite Ho', Ho|]. split.
    { intros q. rewrite !occurrences_snoc, Hs.
      repeat case_decide; subst; (done || lia). }
    intros q. rewrite Hf.
    destruct (decide (q ∈ done ∧ q ∉ tree)) as [[? ?]|Hno].
    + rewrite decide_True; [done|]. split; [|done]. apply elem_of_app. by left.
    + rewrite decide_False; [done|].
      intros [[?|Hq%list_elem_of_singleton]%elem_of_app ?];
        [by apply Hno|by subst].
  - unfold subscribe. rewrite decide_False by by rewrite Htree.
    eexists _, _. split; [reflexivity|]. simpl.
    split; [done|]. split.
    { intros q. rewrite Hm, occurrences_snoc.
      repeat case_decide; subst; (done || lia). }
    split; [done|]. split.
    { intros q. rewrite Hs, occurrences_snoc.
      repeat case_decide; subst; (done || lia). }
    intros q. destruct (decide (x = q)) as [->|Hne].
    + rewrite lookup_insert_eq. rewrite decide_True; [done|].
      split; [|done]. apply elem_of_app. right. by left.
    + rewrite lookup_insert_ne, Hf by done.
      destruct (decide (q ∈ done ∧ q ∉ tree)) as [[? ?]|Hno].
      * rewrite decide_True; [done|]. split; [|done].
        apply elem_of_app. by left.
      * rewrite decide_False; [done|].
        intros [[?|?%list_elem_of_singleton]%elem_of_app ?]; [|done].
        by apply Hno.
Qed.

(** The loop of [create_DEV_UNSUB_message_for] without [remove_all], from
    any ledger. *)
Lemma unsubscribe_paths_once_run client paths r0 app :
  let held q :=
    multiplicity q
      (subscriptions_of (device_tree_subscriptions app) (client_id client)) in
  ∃ app' response,
    for_each paths (unsubscribe_path client false) r0 app
    = (app', inr response)
    ∧ tree_paths (device_tree_subscriptions app')
      = tree_paths (device_tree_subscriptions app)
    ∧ (∀ q, multiplicity q
              (subscriptions_of (device_tree_subscriptions app')
                 (client_id client))
            = held q - occurrences q paths)
    ∧ (∀ client', client' ≠ client_id client →
         subscriptions_of (device_tree_subscriptions app') client'
         = subscriptions_of (device_tree_subscriptions app) client')
    ∧ (∀ q, occurrences q (success response)
            = occurrences q (success r0)
              + held q `min` occurrences q paths)
    ∧ (∀ q, failure response !! q
            = if decide (held q < occurrences q paths)
              then Some (PyStr "Not subscribed to this path")
              else failure r0 !! q).
Proof.
  intros held.
  set (I := λ (done : list string) (r : FlockwaveMessage)
              (a : FlockwaveServer),
         tree_paths (device_tree_subscriptions a)
         = tree_paths (device_tree_subscriptions app)
         ∧ (∀ q, multiplicity q
                   (subscriptions_of (device_tree_subscriptions a)
                      (client_id client))
                 = held q - occurrences q done)
         ∧ (∀ client', client' ≠ client_id client →
              subscriptions_of (device_tree_subscriptions a) client'
              = subscriptions_of (device_tree_subscriptions app) client')
         ∧ (∀ q, occurrences q (success r)
                 = occurrences q (success r0) + held q `min` occurrences q done)
         ∧ (∀ q, failure r !! q
                 = if decide (held q < occurrences q done)
                   then Some (PyStr "Not subscribed to this path")
                   else failure r0 !! q)).
  cut (∃ app' response,
         for_each paths (unsubscribe_path client false) r0 app
         = (app', inr response)
         ∧ I paths response app').
  { intros (app' & response & Hrun & HI). by exists app', response. }
  apply (for_each_inv I); unfold I; clear I; subst held; cbn beta.
  { split; [done|].
    split; [by intros q; rewrite occurrences_nil; lia|].
    split; [done|].
    split; [by intros q; rewrite occurrences_nil; lia|].
    intros q. rewrite occurrences_nil, decide_False; [done|lia]. }
  intros done x rest r a _ (Htree & Hm & Ho & Hs & Hf).
  destruct (decide (multiplicity x
              (subscriptions_of (device_tree_subscriptions a)
                 (client_id client)) = 0)) as [Hz|Hnz].
  - unfold unsubscribe_path, bind, get_app, unsubscribe.
    rewrite decide_True by done.
    eexists _, _. split; [reflexivity|]. simpl.
    rewrite Hm in Hz.
    split; [done|]. split.
    { intros q. rewrite Hm, occurrences_snoc.
      case_decide; subst; lia. }
    split; [done|]. split.
    { intros q. rewrite Hs, occurrences_snoc.
      case_decide; subst; lia. }
    intros q. rewrite occurrences_snoc.
    destruct (decide (x = q)) as [->|Hne].
    + rewrite lookup_insert_eq, decide_True; [done|lia].
    + rewrite lookup_insert_ne, Hf, Nat.add_0_r by done. done.
  - destruct (unsubscribe_subscribed (client_id client) x false
                (device_tree_subscriptions a) Hnz)
      as (mgr' & Hun & Htree' & Hm' & Ho').
    unfold unsubscribe_path, bind, get_app. rewrite Hun.
    eexists _, _. split; [reflexivity|]. simpl.
    rewrite Hm in Hnz.
    split; [congruence|]. split.
    { intros q. rewrite Hm', Hm, occurrences_snoc.
      repeat case_decide; subst; (done || lia). }
    split; [by intros client' Hne; rewrite Ho', Ho|]. split.
    { intros q. rewrite !occurrences_snoc, Hs.
      repeat case_decide; subst; (done || lia). }
    intros q. rewrite Hf, occurrences_snoc.
    destruct (decide (x = q)) as [->|Hne].
    + rewrite !decide_False; [done|lia|lia].
    + by rewrite Nat.add_0_r.
Qed.

(** [create_DEV_SUB_message_for] subscribes the client once for each
    occurrence of a path of the device tree in the request and reports it
    as a success each time; a path that is not in the tree is a failure with
    the reason "No such device tree path" and changes nothing.  The tree
    and the subscriptions of other clients stay as they were. *)
Theorem create_DEV_SUB_message_for_counts client paths in_response_to app :
  ∃ app' response,
    create_DEV_SUB_message_for client paths in_response_to app
    = (app', inr response)
    ∧ tree_paths (device_tree_subscriptions app')
      = tree_paths (device_tree_subscriptions app)
    ∧ (∀ q, multiplicity q
              (subscriptions_of (device_tree_subscriptions app')
                 (client_id client))
            = multiplicity q
                (subscriptions_of (device_tree_subscriptions app)
                   (client_id client))
              + (if decide (q ∈ tree_paths (device_tree_subscriptions app))
                 then occurrences q paths else 0))
    ∧ (∀ client', client' ≠ client_id client →
         subscriptions_of (device_tree_subscriptions app') client'
         = subscriptions_of (device_tree_subscriptions app) client')
    ∧ (∀ q, occurrences q (success response)
            = if decide (q ∈ tree_paths (device_tree_subscriptions app))
              then occurrences q paths else 0)
    ∧ (∀ q, failure response !! q
            = if decide (q ∈ paths
                         ∧ q ∉ tree_paths (device_tree_subscriptions app))
              then Some (PyStr "No such device tree path") else None).
Proof.
  unfold create_DEV_SUB_message_for.
  destruct (subscribe_paths_run client paths
              (create_response_or_notification ∅ in_response_to) app)
    as (app' & response & Hrun & Htree & Hm & Ho & Hs & Hf).
  exists app', response. repeat split; try done.
Qed.

(** [create_DEV_UNSUB_message_for] without [remove_all] and
    [include_subtrees] takes one subscription of the client away for each
    occurrence of a path in the request, as long as the client has one left:
    a path held [n] times and requested [k] times is left with [n - k]
    subscriptions (none when [k] exceeds [n]) and is reported as a success
    [min n k] times; it is a failure with the reason "Not subscribed to this
    path" exactly when [k] exceeds [n].  Other clients are untouched. *)
Theorem create_DEV_UNSUB_message_for_counts client paths in_response_to app :
  ∃ app' response,
    create_DEV_UNSUB_message_for client paths in_response_to false false app
    = (app', inr response)
    ∧ (∀ q, multiplicity q
              (subscriptions_of (device_tree_subscriptions app')
                 (client_id client))
            = multiplicity q
                (subscriptions_of (device_tree_subscriptions app)
                   (client_id client))
              - occurrences q paths)
    ∧ (∀ client', client' ≠ client_id client →
         subscriptions_of (device_tree_subscriptions app') client'
         = subscriptions_of (device_tree_subscriptions app) client')
    ∧ (∀ q, occurrences q (success response)
            = multiplicity q
                (subscriptions_of (device_tree_subscriptions app)
                   (client_id client))
              `min` occurrences q paths)
    ∧ (∀ q, failure response !! q
            = if decide (multiplicity q
                           (subscriptions_of (device_tree_subscriptions app)
                              (client_id client))
                         < occurrences q paths)
              then Some (PyStr "Not subscribed to this path") else None).
Proof.
  unfold create_DEV_UNSUB_message_for, bind, get_app.
  destruct (unsubscribe_paths_once_run client paths
              (create_response_or_notification ∅ in_response_to) app)
    as (app' & response & Hrun & Htree & Hm & Ho & Hs & Hf).
  exists app', response. repeat split; try done.
Qed.

(** Subscribing a client to paths of the device tree with
    [create_DEV_SUB_message_for] and then unsubscribing it from the same
    paths with [create_DEV_UNSUB_message_for] (no [remove_all], no
    [include_subtrees]) leaves every client with the subscriptions it had
    before; the second response reports every path as a success and has no
    failure. *)
Theorem DEV_SUB_then_DEV_UNSUB_restores client paths m1 m2 app :
  (∀ q, q ∈ paths → q ∈ tree_paths (device_tree_subscriptions app)) →
  ∃ app1 r1 app2 r2,
    create_DEV_SUB_message_for client paths m1 app = (app1, inr r1)
    ∧ create_DEV_UNSUB_message_for client paths m2 false false app1
      = (app2, inr r2)
    ∧ (∀ client',
         subscriptions_of (device_tree_subscriptions app2) client'
         = subscriptions_of (device_tree_subscriptions app) client')
    ∧ (∀ q, occurrences q (success r2) = occurrences q paths)
    ∧ failure r2 = ∅.
Proof.
  intros Hin.
  unfold create_DEV_SUB_message_for, create_DEV_UNSUB_message_for, bind,
    get_app.
  destruct (subscribe_paths_run client paths
              (create_response_or_notification ∅ m1) app)
    as (app1 & r1 & Hrun1 & Htree1 & Hm1 & Ho1 & Hs1 & Hf1).
  destruct (unsubscribe_paths_once_run client paths
              (create_response_or_notification ∅ m2) app1)
    as (app2 & r2 & Hrun2 & Htree2 & Hm2 & Ho2 & Hs2 & Hf2).
  exists app1, r1, app2, r2. split; [done|]. split; [done|].
  assert (∀ q, ¬ q ∈ tree_paths (device_tree_subscriptions app) →
               occurrences q paths = 0) as Hout.
  { intros q Hq. destruct (occurrences q paths) eqn:E; [done|].
    destruct Hq. apply Hin, occurrences_pos. lia. }
  split; [|split].
  - intros client'. destruct (decide (client' = client_id client)) as [->|Hne].
    + apply gmultiset_eq. intros q. rewrite Hm2, Hm1.
      case_decide as Hq; [lia|]. rewrite (Hout q Hq). lia.
    + by rewrite Ho2, Ho1.
  - intros q. rewrite Hs2, Hm1. simpl.
    case_decide as Hq; [lia|]. rewrite (Hout q Hq). lia.
  - apply map_eq. intros q. rewrite Hf2, Hm1, lookup_empty.
    rewrite decide_False; [done|].
    case_decide as Hq; [lia|]. rewrite (Hout q Hq). lia.
Qed.

Lemma DEV_SUB_then_DEV_UNSUB_restores_witness :
  ∃ app1 r1 app2 r2,
    create_DEV_SUB_message_for example_client ["/A"; "/A/b"; "/A"] None
      example_app = (app1, inr r1)
    ∧ create_DEV_UNSUB_message_for example_client ["/A"; "/A/b"; "/A"] None
        false false app1 = (app2, inr r2)
    ∧ (∀ client',
         subscriptions_of (device_tree_subscriptions app2) client'
         = subscriptions_of (device_tree_subscriptions example_app) client')
    ∧ (∀ q, occurrences q (success r2)
            = occurrences q ["/A"; "/A/b"; "/A"])
    ∧ failure r2 = ∅.
Proof.
  apply (DEV_SUB_then_DEV_UNSUB_restores example_client
           ["/A"; "/A/b"; "/A"] None None example_app).
  intros q Hq.
  repeat (apply elem_of_cons in Hq as [->|Hq]); try (vm_compute; reflexivity).
  by apply elem_of_nil in Hq.
Defined.

(** ** Listing subscriptions (DEV-LISTSUB) *)

Lemma occurrences_Permutation q l1 l2 :
  l1 ≡ₚ l2 → occurrences q l1 = occurrences q l2.
Proof. intros Hp. unfold occurrences. by rewrite Hp. Qed.

(** [Counter.elements()] repeats each key as many times as its count. *)
Lemma occurrences_elements q (X : gmultiset string) :
  occurrences q (elements X) = multiplicity q X.
Proof.
  induction X as [|x X IH] using gmultiset_ind.
  - by rewrite gmultiset_elements_empty, multiplicity_empty.
  - rewrite (occurrences_Permutation _ _ _
               (gmultiset_elements_disj_union {[+ x +]} X)).
    rewrite gmultiset_elements_singleton, multiplicity_disj_union,
      multiplicity_singleton.
    change ([x] ++ elements X) with (x :: elements X).
    unfold occurrences in *. rewrite filter_cons.
    repeat case_decide; subst; simpl; (done || lia).
Qed.

(** [handle_DEV_LISTSUB] changes nothing in the server and answers the
    request with a DEV-LISTSUB message whose ["paths"] repeat each path at
    or under one of the filter roots as many times as the sender is
    subscribed to it, and hold no other path.  The filter is the
    ["pathFilter"] of the request, or ["/"] alone when the request has
    none. *)
Theorem handle_DEV_LISTSUB_lists_each_subscription message sender app
    path_filter :
  default (FList ["/"]) (body message !! "pathFilter") = FList path_filter →
  ∃ response paths,
    handle_DEV_LISTSUB message sender app = (app, inr response)
    ∧ correlation_id response = correlation_id message
    ∧ body response !! "type" = Some (FVal (PyStr "DEV-LISTSUB"))
    ∧ body response !! "paths" = Some (FList paths)
    ∧ (∀ q, occurrences q paths
            = if under_any path_filter q
              then multiplicity q
                     (subscriptions_of (device_tree_subscriptions app)
                        (client_id sender))
              else 0).
Proof.
  intros Hfilter.
  unfold handle_DEV_LISTSUB, dict_get. rewrite Hfilter.
  eexists _, _. split; [reflexivity|]. split; [done|].
  split; [done|]. split; [done|].
  intros q. rewrite occurrences_elements.
  unfold list_subscriptions. rewrite multiplicity_filter.
  destruct (under_any path_filter q); by case_decide.
Qed.

Lemma handle_DEV_LISTSUB_lists_each_subscription_witness :
  ∃ response paths,
    handle_DEV_LISTSUB (example_request "DEV-LISTSUB" []) example_client
      example_app = (example_app, inr response)
    ∧ correlation_id response
      = correlation_id (example_request "DEV-LISTSUB" [])
    ∧ body response !! "type" = Some (FVal (PyStr "DEV-LISTSUB"))
    ∧ body response !! "paths" = Some (FList paths)
    ∧ (∀ q, occurrences q paths
            = if under_any ["/"] q
              then multiplicity q
                     (subscriptions_of (device_tree_subscriptions example_app)
                        (client_id example_client))
              else 0).
Proof.
  apply (handle_DEV_LISTSUB_lists_each_subscription
           (example_request "DEV-LISTSUB" []) example_client example_app
           ["/"]).
  reflexivity.
Defined.
